(** * Secret-mcp: the tool server ([mcp-server/dist/index.js]) and its store

    A shallow embedding of the MCP tool server of Secret-mcp, with the
    properties of its two tools, [search_secrets] and [write_env].

    Conventions of the embedding.
    - A JavaScript or SQLite text is a [string], a sequence of 8-bit
      characters.  Case conversion is the ASCII one, on which JavaScript's
      [toLowerCase] and SQLite's [LOWER] agree; texts outside ASCII are not
      modelled.
    - The SQLite engine, Node's [path] and [fs] modules and [JSON.stringify]
      are platform code; they are modelled by what their documentation says
      of the calls the program makes (POSIX flavour, no symbolic links, no
      permission failures).
    - The database is a file of the same file system the tool writes to
      ([getDbPath], [openDatabase]); the SQLite file format is not modelled:
      a file holds either text or a database image, that is a table of
      records.
    - Effects are threaded through a state-and-exception monad over the
      [world]; a thrown exception keeps the effects that happened before it.
*)

From Stdlib Require Import Ascii NArith Sorting.Sorted.
From stdpp Require Import gmap strings list sorting pretty.

Local Open Scope stdpp_scope.

(* ===================================================================== *)
(** * Part I: the program *)
(* ===================================================================== *)

(** ** JavaScript string primitives used by the program *)
Module Js.

(** The double quote character. *)
Definition dquote : ascii := "034"%char.

Definition is_upper (c : ascii) : bool :=
  ((65 <=? N_of_ascii c)%N && (N_of_ascii c <=? 90)%N)%bool.

(** One character of [String.prototype.toLowerCase], ASCII range. *)
Definition lower_char (c : ascii) : ascii :=
  if is_upper c then ascii_of_N (N_of_ascii c + 32) else c.

(** [s.toLowerCase()] *)
Fixpoint toLowerCase (s : string) : string :=
  match s with
  | EmptyString => EmptyString
  | String c s' => String (lower_char c) (toLowerCase s')
  end.

(** [s.startsWith(t)] *)
Fixpoint startsWith (s t : string) {struct t} : bool :=
  match t, s with
  | EmptyString, _ => true
  | String _ _, EmptyString => false
  | String b t', String a s' => (if decide (a = b) then startsWith s' t' else false)
  end.

(** [s.includes(t)]: [t] occurs in [s] at some offset. *)
Fixpoint includes (s t : string) : bool :=
  startsWith s t ||
  match s with
  | EmptyString => false
  | String _ s' => includes s' t
  end.

(** [s.replace(/c/g, by)] for a one-character pattern [c] and a
    replacement text [by] without [$]. *)
Fixpoint replace_all (c : ascii) (by_ : string) (s : string) : string :=
  match s with
  | EmptyString => EmptyString
  | String a s' =>
      if decide (a = c) then by_ +:+ replace_all c by_ s'
      else String a (replace_all c by_ s')
  end.

(** [xs.join(sep)] *)
Fixpoint join (sep : string) (xs : list string) : string :=
  match xs with
  | [] => EmptyString
  | [x] => x
  | x :: rest => x +:+ sep +:+ join sep rest
  end.

(** *** [JSON.stringify] of texts *)

Definition hex_digit (n : N) : ascii :=
  ascii_of_N (if (n <? 10)%N then 48 + n else 87 + n).

(** [QuoteJSONString], one character: the two-character escapes, then
    [\u00XX] for the other control characters. *)
Definition json_escape_char (c : ascii) : string :=
  let n := N_of_ascii c in
  if decide (c = dquote) then String "\"%char (String dquote EmptyString)
  else if decide (c = "\"%char) then "\\"
  else if decide (n = 8%N) then "\b"
  else if decide (n = 12%N) then "\f"
  else if decide (n = 10%N) then "\n"
  else if decide (n = 13%N) then "\r"
  else if decide (n = 9%N) then "\t"
  else if (n <? 32)%N then
    "\u00" +:+ String (hex_digit (n / 16)) (String (hex_digit (n mod 16)) EmptyString)
  else String c EmptyString.

Fixpoint json_escape (s : string) : string :=
  match s with
  | EmptyString => EmptyString
  | String c s' => json_escape_char c +:+ json_escape s'
  end.

Definition json_string (s : string) : string :=
  String dquote (json_escape s +:+ String dquote EmptyString).

End Js.

(** ** The secret store: the [secrets] table *)

(** A row of the table ([interface Secret] of the desktop application's
    [api.ts]); timestamps are seconds since the epoch. *)
Record Secret := {
  id : string;
  name : string;
  description : option string;
  value : string;
  created_at : Z;
  updated_at : Z;
}.

(** [interface SecretSearchResult { name; description }]: the row shape of
    the search statement.  Its fields carry a prefix since [name] and
    [description] are already projections of [Secret]. *)
Record SecretSearchResult := {
  sr_name : string;
  sr_description : option string;
}.

(** [interface WriteEnvResult] *)
Record WriteEnvResult := {
  success : bool;
  written : nat;
  missing : list string;
}.

(** ** The SQLite engine, as far as the two statements use it *)
Module Sqlite.

(** [LOWER(x)]: folds ASCII letters only. *)
Definition LOWER (x : string) : string := Js.toLowerCase x.

(** [COALESCE(x, d)] *)
Definition COALESCE (x : option string) (d : string) : string :=
  match x with Some s => s | None => d end.

(** One pattern character against one text character: [_] matches any
    character, another character matches itself up to ASCII case. *)
Definition like_char (p c : ascii) : bool :=
  if decide (p = "_"%char) then true
  else if decide (Js.lower_char p = Js.lower_char c) then true else false.

(** [x LIKE pattern], no [ESCAPE] clause: [%] matches any run of
    characters, [_] any one character. *)
Fixpoint LIKE (x pattern : string) {struct pattern} : bool :=
  match pattern with
  | EmptyString => match x with EmptyString => true | String _ _ => false end
  | String p pattern' =>
      if decide (p = "%"%char) then
        (fix skip (y : string) : bool :=
           LIKE y pattern' ||
           match y with
           | EmptyString => false
           | String _ y' => skip y'
           end) x
      else
        match x with
        | EmptyString => false
        | String c x' => like_char p c && LIKE x' pattern'
        end
  end.

(** [ORDER BY name] under the default [BINARY] collation: ascending in
    the byte order of the texts; rows with equal names keep their table
    order. *)
Fixpoint insert_by_name (r : SecretSearchResult) (l : list SecretSearchResult)
  : list SecretSearchResult :=
  match l with
  | [] => [r]
  | x :: l' =>
      if String.leb (sr_name r) (sr_name x) then r :: x :: l'
      else x :: insert_by_name r l'
  end.

Definition order_by_name (l : list SecretSearchResult) : list SecretSearchResult :=
  foldr insert_by_name [] l.

(** [[
    SELECT name, description FROM secrets
    WHERE LOWER(name) LIKE ? OR LOWER(COALESCE(description, '')) LIKE ?
    ORDER BY name
    ]] run with [stmt.all(p1, p2)]. *)
Definition search_where (p1 p2 : string) (r : Secret) : bool :=
  LIKE (LOWER (name r)) p1 || LIKE (LOWER (COALESCE (description r) EmptyString)) p2.

Definition select_name_description (r : Secret) : SecretSearchResult :=
  {| sr_name := name r; sr_description := description r |}.

Definition select_search (p1 p2 : string) (table : list Secret)
  : list SecretSearchResult :=
  order_by_name (select_name_description <$> filter (λ r, search_where p1 p2 r = true) table).

(** [SELECT name, value FROM secrets WHERE name = ?] run with
    [stmt.get(key)]: the first matching row, or [undefined]. *)
Fixpoint select_by_name (key : string) (table : list Secret)
  : option (string * string) :=
  match table with
  | [] => None
  | r :: table' =>
      if decide (name r = key) then Some (name r, value r)
      else select_by_name key table'
  end.

End Sqlite.

(** ** The environment of the server process *)

(** What a regular file holds.  The database is a file like any other; its
    image is abstracted to the table it stores. *)
Inductive data :=
| Text (s : string)
| SqliteImage (table : list Secret).

(** Permission bits are the low nine bits of [mode], as in [0o600]. *)
Inductive node :=
| Dir
| File (mode : N) (content : data).

(** The file system maps the resolved location of an object, the list of
    names leading to it from the root, to the object; the root is the empty
    list and is always a directory. *)
Record world := {
  nodes : gmap (list string) node;
  umask : N;
  cwd : list string;
}.

Inductive errno := ENOENT | ENOTDIR | EISDIR | EEXIST.

(** What the program and the platform throw. *)
Inductive exn :=
| JsError (message : string)                       (* [new Error(message)] *)
| SystemError (code : errno) (syscall path : string) (* thrown by [fs] *)
| SqliteError (message : string).                   (* thrown by better-sqlite3 *)

Definition errno_name (code : errno) : string :=
  match code with
  | ENOENT => "ENOENT" | ENOTDIR => "ENOTDIR"
  | EISDIR => "EISDIR" | EEXIST => "EEXIST"
  end.

Definition errno_text (code : errno) : string :=
  match code with
  | ENOENT => "no such file or directory"
  | ENOTDIR => "not a directory"
  | EISDIR => "illegal operation on a directory"
  | EEXIST => "file already exists"
  end.

(** [error.message] *)
Definition exn_message (e : exn) : string :=
  match e with
  | JsError m => m
  | SystemError code syscall path =>
      errno_name code +:+ ": " +:+ errno_text code +:+ ", " +:+ syscall
        +:+ " '" +:+ path +:+ "'"
  | SqliteError m => m
  end.

(** *** The monad of the program: state and exceptions *)

Definition M (A : Type) : Type := world → (exn + A) * world.

Definition ret {A} (a : A) : M A := λ w, (inr a, w).

Definition throw {A} (e : exn) : M A := λ w, (inl e, w).

Definition bind {A B} (m : M A) (k : A → M B) : M B :=
  λ w, match m w with
       | (inl e, w') => (inl e, w')
       | (inr a, w') => k a w'
       end.

(** [try { body } catch (error) { handler }] *)
Definition try_catch {A} (body : M A) (handler : exn → M A) : M A :=
  λ w, match body w with
       | (inl e, w') => handler e w'
       | (inr a, w') => (inr a, w')
       end.

Notation "'let!' x ':=' m 'in' k" := (bind m (λ x, k))
  (at level 10, x pattern, m at level 100, k at level 200,
   format "'[v' 'let!'  x  ':='  m  'in' '/' k ']'").

(** ** Node's [path] module (POSIX) *)
Module Path.

Definition is_slash (c : ascii) : bool := bool_decide (c = "/"%char).

(** [path.isAbsolute(p)] *)
Definition isAbsolute (p : string) : bool :=
  match p with
  | EmptyString => false
  | String c _ => is_slash c
  end.

Fixpoint drop_slashes (l : list ascii) : list ascii :=
  match l with
  | c :: l' => if is_slash c then drop_slashes l' else l
  | [] => []
  end.

Fixpoint drop_name (l : list ascii) : list ascii :=
  match l with
  | c :: l' => if is_slash c then l else drop_name l'
  | [] => []
  end.

(** [path.dirname(p)].  Node scans [p] from its end down to index 1: it
    skips trailing slashes, then the last name, and cuts at the slash
    before it ([end]); [r] below is that scan's input, the characters
    of index 1 and more, last first. *)
Definition dirname (p : string) : string :=
  match p with
  | EmptyString => "."
  | String c0 rest =>
      let hasRoot := is_slash c0 in
      let r := reverse (String.list_ascii_of_string rest) in
      match drop_name (drop_slashes r) with
      | [] => if hasRoot then "/" else "."               (* end = -1 *)
      | _ :: before =>
          match before with
          | [] => if hasRoot then "//" else String c0 EmptyString   (* end = 1 *)
          | _ => String c0 (String.string_of_list_ascii (reverse before))
          end
      end
  end.

(** The names of [p] between its slashes, empty ones included. *)
Fixpoint split (p : string) : list string :=
  match p with
  | EmptyString => [EmptyString]
  | String c p' =>
      if is_slash c then EmptyString :: split p'
      else match split p' with
           | x :: xs => String c x :: xs
           | [] => [String c EmptyString]
           end
  end.

End Path.

(** ** Node's [fs] module *)
Module Fs.

(** The object at a resolved location. *)
Definition node_at (ns : gmap (list string) node) (loc : list string) : option node :=
  match loc with
  | [] => Some Dir
  | _ => ns !! loc
  end.

Definition parent (loc : list string) : list string := removelast loc.

Definition is_here (c : string) : bool := bool_decide (c = EmptyString ∨ c = ".").
Definition is_up (c : string) : bool := bool_decide (c = "..").

(** Where the resolution of [p] starts. *)
Definition start (w : world) (p : string) : list string :=
  if Path.isAbsolute p then [] else cwd w.

(** Resolution of the names [comps] from the directory [cur] to an
    existing object: every name but the last must be a directory. *)
Fixpoint resolve (ns : gmap (list string) node) (cur : list string)
    (comps : list string) : errno + list string :=
  match comps with
  | [] => inr cur
  | c :: rest =>
      if is_here c then resolve ns cur rest
      else if is_up c then resolve ns (parent cur) rest
      else match node_at ns (cur ++ [c]) with
           | None => inl ENOENT
           | Some Dir => resolve ns (cur ++ [c]) rest
           | Some (File _ _) =>
               match rest with
               | [] => inr (cur ++ [c])
               | _ => inl ENOTDIR
               end
           end
  end.

(** Resolution for [open] with [O_CREAT]: the directories leading to the
    last name must exist, the last name must be a proper name; the result
    is the location the name denotes, whether an object is there or not. *)
Fixpoint locate (ns : gmap (list string) node) (cur : list string)
    (comps : list string) : errno + list string :=
  match comps with
  | [] => inl EISDIR
  | c :: rest =>
      match rest with
      | [] => if is_here c || is_up c then inl EISDIR else inr (cur ++ [c])
      | _ =>
          if is_here c then locate ns cur rest
          else if is_up c then locate ns (parent cur) rest
          else match node_at ns (cur ++ [c]) with
               | None => inl ENOENT
               | Some Dir => locate ns (cur ++ [c]) rest
               | Some (File _ _) => inl ENOTDIR
               end
      end
  end.

(** [mkdir] of every missing directory along [comps]. *)
Fixpoint mkdirp (ns : gmap (list string) node) (cur : list string)
    (comps : list string) : errno + gmap (list string) node :=
  match comps with
  | [] => inr ns
  | c :: rest =>
      if is_here c then mkdirp ns cur rest
      else if is_up c then mkdirp ns (parent cur) rest
      else match node_at ns (cur ++ [c]) with
           | None => mkdirp (<[cur ++ [c] := Dir]> ns) (cur ++ [c]) rest
           | Some Dir => mkdirp ns (cur ++ [c]) rest
           | Some (File _ _) =>
               inl (if forallb is_here rest then EEXIST else ENOTDIR)
           end
  end.

Definition set_nodes (w : world) (ns : gmap (list string) node) : world :=
  {| nodes := ns; umask := umask w; cwd := cwd w |}.

(** [fs.existsSync(p)]: never throws. *)
Definition existsSync (p : string) : M bool :=
  λ w, match resolve (nodes w) (start w p) (Path.split p) with
       | inr _ => (inr true, w)
       | inl _ => (inr false, w)
       end.

(** [fs.mkdirSync(p, { recursive: true })] *)
Definition mkdirSync_recursive (p : string) : M unit :=
  λ w, match mkdirp (nodes w) (start w p) (Path.split p) with
       | inr ns => (inr (), set_nodes w ns)
       | inl code => (inl (SystemError code "mkdir" p), w)
       end.

(** [fs.writeFileSync(p, content, { mode })]: [open] with
    [O_WRONLY | O_CREAT | O_TRUNC] and [mode], then the write.  The mode
    is used, less the umask, when the file is created; a file that is
    already there is truncated and keeps its mode. *)
Definition writeFileSync (p : string) (content : string) (mode : N) : M unit :=
  λ w, match locate (nodes w) (start w p) (Path.split p) with
       | inl code => (inl (SystemError code "open" p), w)
       | inr loc =>
           match node_at (nodes w) loc with
           | Some Dir => (inl (SystemError EISDIR "open" p), w)
           | Some (File old _) =>
               (inr (), set_nodes w (<[loc := File old (Text content)]> (nodes w)))
           | None =>
               (inr (), set_nodes w
                          (<[loc := File (N.ldiff mode (umask w)) (Text content)]> (nodes w)))
           end
       end.

End Fs.

(** ** better-sqlite3: the connection and its statements *)

(** The connection [main] opens once with [openDatabase(getDbPath())]; it
    stands for the database file at the resolved location [db_file]. *)
Record Database := { db_file : list string }.

Record Statement := { stmt_db : Database }.

Module Sql.

(** The records the database file holds, if it is a database. *)
Definition records (db : Database) (w : world) : option (list Secret) :=
  match nodes w !! db_file db with
  | Some (File _ (SqliteImage table)) => Some table
  | _ => None
  end.

(** What the engine reports when the file is no database any more
    ([SQLITE_NOTADB]) or is not a file ([SQLITE_CANTOPEN]). *)
Definition unreadable (n : option node) : string :=
  match n with
  | Some (File _ _) => "file is not a database"
  | _ => "unable to open database file"
  end.

(** The engine reads the table from the database file. *)
Definition read_table (db : Database) : M (list Secret) :=
  λ w, match records db w with
       | Some table => (inr table, w)
       | None => (inl (SqliteError (unreadable (nodes w !! db_file db))), w)
       end.

(** [db.prepare(sql)]: compiles [sql] against the schema in the file. *)
Definition prepare (db : Database) : M Statement :=
  let! _ := read_table db in ret {| stmt_db := db |}.

(** [stmt.all(p1, p2)] of the search statement. *)
Definition all_search (stmt : Statement) (p1 p2 : string)
  : M (list SecretSearchResult) :=
  let! table := read_table (stmt_db stmt) in
  ret (Sqlite.select_search p1 p2 table).

(** [stmt.get(key)] of the statement by name. *)
Definition get_by_name (stmt : Statement) (key : string)
  : M (option (string * string)) :=
  let! table := read_table (stmt_db stmt) in
  ret (Sqlite.select_by_name key table).

End Sql.

(** ** The tool server, [index.js] *)

Definition newline : string := String "010"%char EmptyString.

Definition searchSecrets (db : Database) (query : string)
  : M (list SecretSearchResult) :=
  let pattern := "%" +:+ Js.toLowerCase query +:+ "%" in
  let! stmt := Sql.prepare db in
  Sql.all_search stmt pattern pattern.

(** The first loop of [writeEnvFile]: [found] and [missing] are the
    loop's two accumulators. *)
Fixpoint lookup_keys (stmt : Statement) (keys : list string)
    (found : gmap string string) (missing : list string)
  : M (gmap string string * list string) :=
  match keys with
  | [] => ret (found, missing)
  | key :: keys' =>
      let! row := Sql.get_by_name stmt key in
      match row with
      | Some (row_name, row_value) =>
          lookup_keys stmt keys' (<[row_name := row_value]> found) missing
      | None => lookup_keys stmt keys' found (missing ++ [key])
      end
  end.

(** The condition of the inner [if]: the value has a space, a double
    quote, a single quote or a newline. *)
Definition needs_quotes (value : string) : bool :=
  Js.includes value " " || Js.includes value (String Js.dquote EmptyString)
  || Js.includes value "'" || Js.includes value newline.

(** What one iteration appends to [content]. *)
Definition env_line (key value : string) : string :=
  if needs_quotes value then
    key +:+ "=" +:+ String Js.dquote
      (Js.replace_all Js.dquote (String "\"%char (String Js.dquote EmptyString)) value
       +:+ String Js.dquote newline)
  else key +:+ "=" +:+ value +:+ newline.

(** The second loop of [writeEnvFile]. *)
Fixpoint build_content (found : gmap string string) (keys : list string)
    (content : string) : string :=
  match keys with
  | [] => content
  | key :: keys' =>
      match found !! key with
      | Some value => build_content found keys' (content +:+ env_line key value)
      | None => build_content found keys' content
      end
  end.

(** [0o600]: read and write for the owner. *)
Definition mode_600 : N := 384.

Definition writeEnvFile (db : Database) (keys : list string) (envPath : string)
  : M WriteEnvResult :=
  if negb (Path.isAbsolute envPath) then throw (JsError "Path must be absolute")
  else
    let! stmt := Sql.prepare db in
    let! (found, missing) := lookup_keys stmt keys ∅ [] in
    let content := build_content found keys EmptyString in
    let dir := Path.dirname envPath in
    let! dir_exists := Fs.existsSync dir in
    let! _ := (if negb dir_exists then Fs.mkdirSync_recursive dir else ret ()) in
    let! _ := Fs.writeFileSync envPath content mode_600 in
    ret {| success := true; written := size found; missing := missing |}.

(** *** The [CallToolRequest] handler *)

(** [request.params]: the tool's name and its arguments, at the types the
    handler casts them to. *)
Module Request.
Record arguments := {
  query : string;
  keys : list string;
  path : string;
}.
Record params := {
  name : string;
  args : arguments;
}.
End Request.

(** The handler's result: [{ content: [{ type: "text", text }], isError }],
    an absent [isError] being [false]. *)
Record CallToolResult := {
  text : string;
  isError : bool;
}.

(** [JSON.stringify(results, null, 2)] on the rows of a search. *)
Definition json_member (indent key val : string) : string :=
  indent +:+ Js.json_string key +:+ ": " +:+ val.

Definition json_nullable (x : option string) : string :=
  match x with
  | Some s => Js.json_string s
  | None => "null"
  end.

Definition json_result (r : SecretSearchResult) : string :=
  "  {" +:+ newline
  +:+ json_member "    " "name" (Js.json_string (sr_name r)) +:+ "," +:+ newline
  +:+ json_member "    " "description" (json_nullable (sr_description r)) +:+ newline
  +:+ "  }".

Definition JSON_stringify (results : list SecretSearchResult) : string :=
  match results with
  | [] => "[]"
  | _ => "[" +:+ newline +:+ Js.join ("," +:+ newline) (json_result <$> results)
         +:+ newline +:+ "]"
  end.

(** The status line of [write_env]. *)
Definition write_env_message (result : WriteEnvResult) (envPath : string) : string :=
  let message :=
    "Successfully wrote " +:+ pretty (written result) +:+ " secret(s) to " +:+ envPath in
  if decide (0 < length (missing result)) then
    message +:+ newline +:+ "Missing secrets (not found): " +:+ Js.join ", " (missing result)
  else message.

(** The body of the handler's [try]. *)
Definition dispatch (db : Database) (request : Request.params) : M CallToolResult :=
  let name := Request.name request in
  let args := Request.args request in
  if decide (name = "search_secrets") then
    let! results := searchSecrets db (Request.query args) in
    ret {| text := JSON_stringify results; isError := false |}
  else if decide (name = "write_env") then
    let envPath := Request.path args in
    let! result := writeEnvFile db (Request.keys args) envPath in
    ret {| text := write_env_message result envPath; isError := false |}
  else throw (JsError ("Unknown tool: " +:+ name)).

Definition callTool (db : Database) (request : Request.params) : M CallToolResult :=
  try_catch (dispatch db request)
    (λ error, ret {| text := "Error: " +:+ exn_message error; isError := true |}).

(** The server answers the requests of a session one at a time, in
    order. *)
Fixpoint serve (db : Database) (requests : list Request.params)
  : M (list CallToolResult) :=
  match requests with
  | [] => ret []
  | request :: rest =>
      let! response := callTool db request in
      let! responses := serve db rest in
      ret (response :: responses)
  end.

(** ** The desktop application's search, [SecretList.svelte] *)

(** The predicate of [filteredSecrets]; [s.description || ""] is the
    description or the empty text. *)
Definition filter_matches (searchQuery : string) (s : Secret) : bool :=
  Js.includes (Js.toLowerCase (name s)) (Js.toLowerCase searchQuery)
  || Js.includes (Js.toLowerCase (default EmptyString (description s)))
       (Js.toLowerCase searchQuery).

Definition filteredSecrets (secrets : list Secret) (searchQuery : string) : list Secret :=
  filter (λ s, filter_matches searchQuery s = true) secrets.

(* ===================================================================== *)
(** * Part II: the vocabulary of the specification *)
(* ===================================================================== *)

Module Spec.

Definition chars (s : string) : list ascii := String.list_ascii_of_string s.

(** *** Search *)

(** [text] contains [q] as a substring, letter case apart. *)
Definition contains_ci (text q : string) : Prop :=
  ∃ before after : string,
    Js.toLowerCase text = before +:+ Js.toLowerCase q +:+ after.

(** A record matches [q] by its name or by its description, an absent
    description counting as the empty text. *)
Definition matches (q : string) (r : Secret) : Prop :=
  contains_ci (name r) q ∨ contains_ci (default EmptyString (description r)) q.

(** The projection of a record to what a search may show. *)
Definition metadata (r : Secret) : string * option string :=
  (name r, description r).

Definition by_name (a b : SecretSearchResult) : Prop :=
  String.leb (sr_name a) (sr_name b) = true.

(** A text without capital letters. *)
Definition lowered (x : string) : Prop := Js.toLowerCase x = x.

(** A query without the metacharacters of [LIKE]. *)
Definition plain (q : string) : Prop :=
  ("%"%char ∉ chars q) ∧ ("_"%char ∉ chars q).

(** *** [write_env] *)

(** [findExact(name)]: the record of that exact name. *)
Definition findExact (table : list Secret) (key : string) : option Secret :=
  head (filter (λ r, name r = key) table).

Definition stored (table : list Secret) (key : string) : Prop :=
  key ∈ name <$> table.

#[global] Instance stored_dec table key : Decision (stored table key).
Proof. unfold stored. apply _. Defined.

(** The value found for a key. *)
Definition found_value (table : list Secret) (key : string) : option string :=
  value <$> findExact table key.

(** The found values keyed by name. *)
Definition found_of (table : list Secret) (keys : list string) : gmap string string :=
  list_to_map (omap (λ key, (λ v, (key, v)) <$> found_value table key) keys).

(** The keys that are not found, in the order and as often as [keys] has
    them. *)
Definition missing_of (table : list Secret) (keys : list string) : list string :=
  filter (λ key, ¬ stored table key) keys.

(** The count of distinct found names. *)
Definition distinct_found (table : list Secret) (keys : list string) : nat :=
  length (remove_dups (filter (stored table) keys)).

(** The characters that make a value quoted: space, double quote, single
    quote, newline. *)
Definition quoting_chars : list ascii :=
  [" "%char; Js.dquote; "'"%char; "010"%char].

Definition quoted (value : string) : Prop :=
  Exists (λ c, c ∈ quoting_chars) (chars value).

#[global] Instance quoted_dec value : Decision (quoted value).
Proof. unfold quoted. apply _. Defined.

(** Every double quote of the value preceded by a backslash. *)
Definition escaped (value : string) : string :=
  String.string_of_list_ascii
    (c ← chars value; if decide (c = Js.dquote) then ["\"%char; Js.dquote] else [c]).

(** The line of one key with its value: quoted and escaped, or bare. *)
Definition line (key value : string) : string :=
  if decide (quoted value) then
    key +:+ "=" +:+ String Js.dquote EmptyString +:+ escaped value
      +:+ String Js.dquote EmptyString +:+ newline
  else key +:+ "=" +:+ value +:+ newline.

(** The lines of a request: one for each occurrence of a key that is
    found, in the order of [keys]; nothing for a key that is not. *)
Definition lines_of (table : list Secret) (keys : list string) : list string :=
  omap (λ key, line key <$> found_value table key) keys.

Definition concat_lines (lines : list string) : string :=
  foldr String.app EmptyString lines.

(** No permission bit of group or others ([0o077]). *)
Definition owner_only (mode : N) : Prop := N.land mode 63 = 0%N.

(** *** The file system *)

(** The location a path names, read off its text alone. *)
Fixpoint lexical (cur : list string) (comps : list string) : list string :=
  match comps with
  | [] => cur
  | c :: rest =>
      if Fs.is_here c then lexical cur rest
      else if Fs.is_up c then lexical (Fs.parent cur) rest
      else lexical (cur ++ [c]) rest
  end.

Definition location (w : world) (p : string) : list string :=
  lexical (Fs.start w p) (Path.split p).

Definition is_directory (w : world) (loc : list string) : Prop :=
  Fs.node_at (nodes w) loc = Some Dir.

(** The regular file a path leads to: its mode and what it holds. *)
Definition file_at (w : world) (p : string) : option (N * data) :=
  match Fs.resolve (nodes w) (Fs.start w p) (Path.split p) with
  | inr loc =>
      match nodes w !! loc with
      | Some (File mode content) => Some (mode, content)
      | _ => None
      end
  | inl _ => None
  end.

(** Objects persist from [ns] to [ns']: a directory stays a directory, a
    file stays a file. *)
Definition persists (ns ns' : gmap (list string) node) : Prop :=
  ∀ loc, match ns !! loc with
         | Some Dir => ns' !! loc = Some Dir
         | Some (File _ _) => ∃ m c, ns' !! loc = Some (File m c)
         | None => True
         end.

(** [ns'] is [ns] with directories added at free locations. *)
Definition grows (ns ns' : gmap (list string) node) : Prop :=
  ∀ loc, ns' !! loc = ns !! loc ∨ (ns !! loc = None ∧ ns' !! loc = Some Dir).

(** Every location on the way to [cur], and [cur] itself, is a directory. *)
Definition dirs_above (ns : gmap (list string) node) (cur : list string) : Prop :=
  ∀ pre, pre `prefix_of` cur → Fs.node_at ns pre = Some Dir.

(** The file system accepts a write at [envPath]: the directories of the
    path exist or can be made, and the path then names a file or nothing. *)
Definition writable (w : world) (envPath : string) : Prop :=
  ∃ ns1 loc,
    Fs.mkdirp (nodes w) (Fs.start w (Path.dirname envPath))
      (Path.split (Path.dirname envPath)) = inr ns1
    ∧ Fs.locate ns1 (Fs.start w envPath) (Path.split envPath) = inr loc
    ∧ Fs.node_at ns1 loc ≠ Some Dir.

(** *** What the caller may learn *)

(** The part of an object that may show in a response: its kind and,
    for the database, the names and descriptions of its records. *)
Inductive shape :=
| SDir
| SText
| SImage (public : list (string * option string)).

Definition shape_of (n : node) : shape :=
  match n with
  | Dir => SDir
  | File _ (Text _) => SText
  | File _ (SqliteImage table) => SImage (metadata <$> table)
  end.

Definition same_shape (ns1 ns2 : gmap (list string) node) : Prop :=
  ∀ loc, shape_of <$> (ns1 !! loc) = shape_of <$> (ns2 !! loc).

(** Two worlds that differ in secret values, ids and timestamps, in
    the content of text files and in permission bits only. *)
Definition agree (w1 w2 : world) : Prop :=
  cwd w1 = cwd w2 ∧ same_shape (nodes w1) (nodes w2).

(** Two runs that end alike: the same result or the same exception, in
    worlds that agree. *)
Definition alike {A} (r1 r2 : (exn + A) * world) : Prop :=
  r1.1 = r2.1 ∧ agree r1.2 r2.2.

End Spec.

(** ** A store and a file system to run the program on *)
Module Example.

Definition secret (n : string) (d : option string) (v : string) (t : Z) : Secret :=
  {| id := "id-" +:+ n; name := n; description := d; value := v;
     created_at := t; updated_at := t |}.

(** Two records, [API_KEY] and [A]; no [B]. *)
Definition table : list Secret :=
  [ secret "API_KEY" (Some "Key of the payment API") "sk live 123" 1700000100;
    secret "A" None "1234" 1700000000 ].

(** The same records with other values. *)
Definition other_table : list Secret :=
  [ secret "API_KEY" (Some "Key of the payment API") "another" 1700000100;
    secret "A" None "he said hi" 1700000000 ].

Definition db : Database := {| db_file := ["data"; "secrets.db"] |}.

(** [/data/secrets.db] is the database, [/work/.env] a file that others
    may read ([0o644]); the umask is [0o022]. *)
Definition files (t : list Secret) : gmap (list string) node :=
  <[ ["data"] := Dir ]>
  (<[ ["data"; "secrets.db"] := File 384 (SqliteImage t) ]>
  (<[ ["work"] := Dir ]>
  (<[ ["work"; ".env"] := File 420 (Text "OLD=1") ]> ∅))).

(** The value [he said "hi"] and the line it makes under [NAME]. *)
Definition he_said_hi : string :=
  "he said " +:+ String Js.dquote ("hi" +:+ String Js.dquote EmptyString).

Definition he_said_hi_line : string :=
  "NAME=" +:+ String Js.dquote
    ("he said \" +:+ String Js.dquote
       ("hi\" +:+ String Js.dquote (String Js.dquote newline))).

Definition machine : world :=
  {| nodes := files table; umask := 18; cwd := ["work"] |}.

Definition other_machine : world :=
  {| nodes := files other_table; umask := 18; cwd := ["work"] |}.

End Example.

(* ===================================================================== *)
(** * Part III: properties *)
(* ===================================================================== *)

(** ** Texts *)
Section Texts.

Implicit Types (s t x q : string) (c p : ascii).

Lemma lower_char_idem c : Js.lower_char (Js.lower_char c) = Js.lower_char c.
Proof. by destruct c as [[] [] [] [] [] [] [] []]. Qed.

Lemma lower_char_percent c : Js.lower_char c = "%"%char → c = "%"%char.
Proof. by destruct c as [[] [] [] [] [] [] [] []]. Qed.

Lemma lower_char_underscore c : Js.lower_char c = "_"%char → c = "_"%char.
Proof. by destruct c as [[] [] [] [] [] [] [] []]. Qed.

Lemma toLowerCase_idem s : Js.toLowerCase (Js.toLowerCase s) = Js.toLowerCase s.
Proof. induction s as [|c s IH]; simpl; [done|]. by rewrite lower_char_idem, IH. Qed.

Lemma append_cons c s t : String c s +:+ t = String c (s +:+ t).
Proof. done. Qed.

Lemma append_nil_l s : EmptyString +:+ s = s.
Proof. done. Qed.

Lemma append_nil_r s : s +:+ EmptyString = s.
Proof. induction s as [|c s IH]; [done|]. by rewrite append_cons, IH. Qed.

Lemma append_assoc s t x : (s +:+ t) +:+ x = s +:+ t +:+ x.
Proof. induction s as [|c s IH]; [done|]. by rewrite !append_cons, IH. Qed.

Lemma toLowerCase_app s t :
  Js.toLowerCase (s +:+ t) = Js.toLowerCase s +:+ Js.toLowerCase t.
Proof.
  induction s as [|c s IH]; [done|].
  rewrite append_cons. simpl. by rewrite IH, append_cons.
Qed.

(** [startsWith] and [includes] against concatenation. *)
Lemma startsWith_spec s t : Js.startsWith s t = true ↔ ∃ after, s = t +:+ after.
Proof.
  revert s. induction t as [|b t IH]; intros s; simpl.
  - split; [intros _; by exists s | done].
  - destruct s as [|a s].
    + split; [done | intros [after H]; discriminate H].
    + destruct (decide (a = b)) as [->|Hne].
      * rewrite IH. split; intros [after H]; exists after.
        -- by rewrite H.
        -- rewrite append_cons in H. by inversion H.
      * split; [done | intros [after H]].
        rewrite append_cons in H. inversion H. congruence.
Qed.

Lemma includes_spec s t :
  Js.includes s t = true ↔ ∃ before after, s = before +:+ t +:+ after.
Proof.
  induction s as [|a s IH]; simpl.
  - rewrite orb_false_r, startsWith_spec. split.
    + intros [after H]. by exists EmptyString, after.
    + intros [[|b before] [after H]]; [by exists after | discriminate H].
  - rewrite orb_true_iff, startsWith_spec, IH. split.
    + intros [[after H] | (before & after & H)].
      * by exists EmptyString, after.
      * exists (String a before), after. by rewrite H.
    + intros ([|b before] & after & H).
      * left. by exists after.
      * right. exists before, after. rewrite append_cons in H. by inversion H.
Qed.

Lemma includes_empty s : Js.includes s EmptyString = true.
Proof. by destruct s. Qed.

End Texts.

(** ** The engine's [LIKE] and [ORDER BY] *)
Section Engine.

Implicit Types (x q pat : string) (c p : ascii).

Lemma percent_app s : "%" +:+ s = String "%"%char s.
Proof. done. Qed.

Lemma LIKE_percent x pat :
  Sqlite.LIKE x (String "%"%char pat)
  = Sqlite.LIKE x pat
    || match x with
       | EmptyString => false
       | String _ x' => Sqlite.LIKE x' (String "%"%char pat)
       end.
Proof. by destruct x. Qed.

(** [_] consumes one character, whichever it is. *)
Lemma LIKE_underscore c x pat :
  Sqlite.LIKE (String c x) (String "_"%char pat) = Sqlite.LIKE x pat.
Proof. done. Qed.

Lemma LIKE_any x : Sqlite.LIKE x "%" = true.
Proof.
  induction x as [|c x IH]; [done|].
  rewrite LIKE_percent. by rewrite IH, orb_true_r.
Qed.

Lemma LIKE_some x :
  Sqlite.LIKE x "%_%" = if decide (x = EmptyString) then false else true.
Proof.
  destruct x as [|c x]; [done|].
  rewrite LIKE_percent, LIKE_underscore, LIKE_any. done.
Qed.

Lemma lowered_toLowerCase x : Spec.lowered (Js.toLowerCase x).
Proof. apply toLowerCase_idem. Qed.

Lemma lowered_cons c x : Spec.lowered (String c x) → Js.lower_char c = c ∧ Spec.lowered x.
Proof. unfold Spec.lowered. simpl. intros H. injection H as H1 H2. by rewrite H1, H2. Qed.

Lemma plain_cons c q :
  Spec.plain (String c q) → c ≠ "%"%char ∧ c ≠ "_"%char ∧ Spec.plain q.
Proof.
  unfold Spec.plain, Spec.chars. simpl. rewrite !not_elem_of_cons. naive_solver.
Qed.

(** On a query without metacharacters, the pattern [q%] is a test for a
    prefix. *)
Lemma LIKE_prefix q x :
  Spec.plain q → Spec.lowered x →
  Sqlite.LIKE x (Js.toLowerCase q +:+ "%") = Js.startsWith x (Js.toLowerCase q).
Proof.
  revert x. induction q as [|a q IH]; intros x Hq Hx.
  - apply LIKE_any.
  - apply plain_cons in Hq as (Hpc & Hus & Hq).
    cbn [Js.toLowerCase]. rewrite append_cons. cbn [Sqlite.LIKE Js.startsWith].
    destruct (decide (Js.lower_char a = "%"%char)) as [E|_];
      [by apply lower_char_percent in E|].
    destruct x as [|c x]; [done|].
    apply lowered_cons in Hx as [Hc Hx].
    rewrite (IH x Hq Hx). unfold Sqlite.like_char.
    destruct (decide (Js.lower_char a = "_"%char)) as [E|_];
      [by apply lower_char_underscore in E|].
    rewrite lower_char_idem, Hc.
    destruct (decide (Js.lower_char a = c)) as [E|NE], (decide (c = Js.lower_char a));
      first [done | congruence].
Qed.

(** And [%q%] is a test for a substring. *)
Lemma LIKE_substring q x :
  Spec.plain q → Spec.lowered x →
  Sqlite.LIKE x ("%" +:+ Js.toLowerCase q +:+ "%") = Js.includes x (Js.toLowerCase q).
Proof.
  intros Hq. rewrite percent_app.
  induction x as [|c x IH]; intros Hx; rewrite LIKE_percent, (LIKE_prefix q _ Hq Hx).
  - done.
  - apply lowered_cons in Hx as [_ Hx]. by rewrite (IH Hx).
Qed.

(** *** Order *)

Lemma leb_compare_trans s1 s2 s3 r :
  String.compare s1 s2 ≠ Gt → String.compare s2 s3 ≠ Gt →
  String.compare s1 s3 = r → r ≠ Gt.
Proof.
  revert s2 s3 r. induction s1 as [|c1 s1 IH]; intros [|c2 s2] [|c3 s3] r;
    simpl; try congruence.
  unfold Ascii.compare.
  destruct (N.compare_spec (N_of_ascii c1) (N_of_ascii c2)) as [E12|L12|G12];
    [|intros _|congruence];
    (destruct (N.compare_spec (N_of_ascii c2) (N_of_ascii c3)) as [E23|L23|G23];
     [|intros _|congruence]).
  - rewrite E12, E23, N.compare_refl. apply IH.
  - intros _ <-. rewrite E12. by rewrite (proj2 (N.compare_lt_iff _ _) L23).
  - intros _ <-. rewrite <- E23. by rewrite (proj2 (N.compare_lt_iff _ _) L12).
  - intros <-. by rewrite (proj2 (N.compare_lt_iff _ _) (N.lt_trans _ _ _ L12 L23)).
Qed.

Global Instance by_name_trans : Transitive Spec.by_name.
Proof.
  intros a b c. unfold Spec.by_name, String.leb. intros Hab Hbc.
  destruct (String.compare (sr_name a) (sr_name c)) eqn:E; [done|done|].
  exfalso.
  refine (leb_compare_trans (sr_name a) (sr_name b) (sr_name c) Gt _ _ E eq_refl).
  - by destruct (String.compare (sr_name a) (sr_name b)).
  - by destruct (String.compare (sr_name b) (sr_name c)).
Qed.

Lemma insert_by_name_perm r l : Sqlite.insert_by_name r l ≡ₚ r :: l.
Proof.
  induction l as [|x l IH]; simpl; [done|].
  destruct (String.leb _ _); [done|]. rewrite IH. apply Permutation_swap.
Qed.

Lemma order_by_name_perm l : Sqlite.order_by_name l ≡ₚ l.
Proof.
  induction l as [|r l IH]; simpl; [done|].
  by rewrite insert_by_name_perm, IH.
Qed.

Lemma insert_by_name_sorted r l :
  StronglySorted Spec.by_name l →
  StronglySorted Spec.by_name (Sqlite.insert_by_name r l).
Proof.
  induction l as [|x l IH]; simpl; intros Hl.
  - repeat constructor.
  - apply StronglySorted_cons in Hl as [Hx Hl].
    destruct (String.leb (sr_name r) (sr_name x)) eqn:E.
    + apply StronglySorted_cons. split; [|by apply StronglySorted_cons].
      constructor; [done|].
      eapply Forall_impl; [exact Hx|]. intros y Hy. by transitivity x.
    + apply StronglySorted_cons. split; [|by apply IH].
      rewrite insert_by_name_perm. constructor; [|done].
      destruct (String.leb_total (sr_name r) (sr_name x)); [congruence|done].
Qed.

Lemma order_by_name_sorted l : StronglySorted Spec.by_name (Sqlite.order_by_name l).
Proof.
  induction l as [|r l IH]; simpl; [constructor|]. by apply insert_by_name_sorted.
Qed.

End Engine.

(** ** The store and the lookups of [write_env] *)
Section Store.

Implicit Types (db : Database) (w : world) (table : list Secret).
Implicit Types (key k : string) (keys : list string).

Lemma read_table_ok db w table :
  Sql.records db w = Some table → Sql.read_table db w = (inr table, w).
Proof. unfold Sql.read_table. by intros ->. Qed.

Lemma read_table_fail db w :
  Sql.records db w = None →
  Sql.read_table db w = (inl (SqliteError (Sql.unreadable (nodes w !! db_file db))), w).
Proof. unfold Sql.read_table. by intros ->. Qed.

Lemma prepare_ok db w table :
  Sql.records db w = Some table → Sql.prepare db w = (inr {| stmt_db := db |}, w).
Proof. intros H. unfold Sql.prepare, bind. by rewrite (read_table_ok _ _ _ H). Qed.

Lemma prepare_fail db w :
  Sql.records db w = None →
  Sql.prepare db w = (inl (SqliteError (Sql.unreadable (nodes w !! db_file db))), w).
Proof. intros H. unfold Sql.prepare, bind. by rewrite (read_table_fail _ _ H). Qed.

Lemma searchSecrets_ok db q w table :
  Sql.records db w = Some table →
  searchSecrets db q w
  = (inr (Sqlite.select_search ("%" +:+ Js.toLowerCase q +:+ "%")
            ("%" +:+ Js.toLowerCase q +:+ "%") table), w).
Proof.
  intros H. unfold searchSecrets, bind at 1. rewrite (prepare_ok _ _ _ H).
  unfold Sql.all_search, bind. simpl. by rewrite (read_table_ok _ _ _ H).
Qed.

Lemma searchSecrets_fail db q w :
  Sql.records db w = None →
  searchSecrets db q w
  = (inl (SqliteError (Sql.unreadable (nodes w !! db_file db))), w).
Proof. intros H. unfold searchSecrets, bind. by rewrite (prepare_fail _ _ H). Qed.

Lemma searchSecrets_world db q w : (searchSecrets db q w).2 = w.
Proof.
  destruct (Sql.records db w) as [table|] eqn:H.
  - by rewrite (searchSecrets_ok _ _ _ _ H).
  - by rewrite (searchSecrets_fail _ _ _ H).
Qed.

Lemma select_by_name_findExact key table :
  Sqlite.select_by_name key table
  = (λ r, (name r, value r)) <$> Spec.findExact table key.
Proof.
  unfold Spec.findExact. induction table as [|r table IH]; simpl; [done|].
  rewrite filter_cons. by destruct (decide (name r = key)).
Qed.

Lemma findExact_name table key r : Spec.findExact table key = Some r → name r = key.
Proof.
  unfold Spec.findExact. intros H. apply head_Some_elem_of in H.
  by apply list_elem_of_filter in H as [H _].
Qed.

Lemma findExact_stored table key :
  is_Some (Spec.findExact table key) ↔ Spec.stored table key.
Proof.
  unfold Spec.findExact, Spec.stored. induction table as [|r table IH]; simpl.
  - rewrite elem_of_nil. split; [by intros [? ?] | done].
  - rewrite filter_cons, elem_of_cons.
    destruct (decide (name r = key)) as [->|Hne]; simpl; [naive_solver|].
    rewrite IH. naive_solver.
Qed.

Lemma found_value_stored table key :
  is_Some (Spec.found_value table key) ↔ Spec.stored table key.
Proof. unfold Spec.found_value. by rewrite fmap_is_Some, findExact_stored. Qed.

Lemma found_value_None table key :
  Spec.found_value table key = None ↔ ¬ Spec.stored table key.
Proof. by rewrite <- found_value_stored, eq_None_not_Some. Qed.

Lemma found_of_nil table : Spec.found_of table [] = ∅.
Proof. done. Qed.

Lemma found_of_cons table key keys :
  Spec.found_of table (key :: keys)
  = match Spec.found_value table key with
    | Some v => <[key := v]> (Spec.found_of table keys)
    | None => Spec.found_of table keys
    end.
Proof. unfold Spec.found_of. simpl. by destruct (Spec.found_value table key). Qed.

(** [found] holds the keys of the request that are stored, each with the
    value found for it. *)
Lemma found_of_lookup table keys k :
  Spec.found_of table keys !! k
  = if decide (k ∈ keys) then Spec.found_value table k else None.
Proof.
  induction keys as [|key keys IH].
  - rewrite decide_False by apply not_elem_of_nil. apply lookup_empty.
  - rewrite found_of_cons. destruct (decide (k = key)) as [->|Hne].
    + rewrite decide_True by left.
      destruct (Spec.found_value table key) as [v|] eqn:E.
      * by rewrite lookup_insert_eq.
      * rewrite IH. by case_decide.
    + assert (Spec.found_of table keys !! k
              = if decide (k ∈ key :: keys) then Spec.found_value table k else None) as <-.
      { rewrite IH. repeat case_decide; set_solver. }
      destruct (Spec.found_value table key); [by rewrite lookup_insert_ne|done].
Qed.

Lemma lookup_keys_ok stmt keys found missing w table :
  Sql.records (stmt_db stmt) w = Some table →
  lookup_keys stmt keys found missing w
  = (inr (Spec.found_of table keys ∪ found, missing ++ Spec.missing_of table keys), w).
Proof.
  intros H. revert found missing. unfold Spec.missing_of.
  induction keys as [|key keys IH]; intros found missing; simpl.
  - unfold ret. by rewrite found_of_nil, app_nil_r, (left_id_L ∅ (∪)).
  - unfold bind at 1, Sql.get_by_name, bind at 1. rewrite (read_table_ok _ _ _ H).
    unfold ret. rewrite select_by_name_findExact, found_of_cons, filter_cons.
    unfold Spec.found_value.
    destruct (Spec.findExact table key) as [r|] eqn:E; simpl.
    + rewrite IH. rewrite decide_False.
      2:{ intros Hn. apply Hn, findExact_stored. by rewrite E. }
      rewrite (findExact_name _ _ _ E).
      assert (Spec.found_of table keys ∪ <[key := value r]> found
              = <[key := value r]> (Spec.found_of table keys) ∪ found) as ->; [|done].
      apply map_eq. intros k. rewrite !lookup_union.
      destruct (decide (k = key)) as [->|Hne].
      * rewrite !lookup_insert_eq, found_of_lookup. unfold Spec.found_value.
        rewrite E. by destruct (found !! key); case_decide.
      * by rewrite !lookup_insert_ne.
    + rewrite IH. rewrite decide_True.
      2:{ intros Hs. apply findExact_stored in Hs as [? Hs]. congruence. }
      by rewrite <- app_assoc.
Qed.

(** The size of [found] counts each found name once. *)
Lemma size_found_of table keys :
  size (Spec.found_of table keys) = Spec.distinct_found table keys.
Proof.
  unfold Spec.distinct_found.
  rewrite <- (size_dom (D := gset string)).
  rewrite <- (size_list_to_set (C := gset string)) by apply NoDup_remove_dups.
  f_equal. apply set_eq. intros k.
  rewrite elem_of_dom, found_of_lookup, elem_of_list_to_set, elem_of_remove_dups,
    list_elem_of_filter.
  case_decide as Hk.
  - rewrite found_value_stored. naive_solver.
  - split; [by intros [? ?] | naive_solver].
Qed.

End Store.

(** ** The content of the file *)
Section Content.

Implicit Types (key value content : string) (keys ks : list string).

Lemma includes_char value c :
  Js.includes value (String c EmptyString) = true ↔ c ∈ Spec.chars value.
Proof.
  unfold Spec.chars. induction value as [|a value IH]; simpl.
  - by rewrite elem_of_nil.
  - rewrite elem_of_cons, orb_true_iff, IH.
    destruct (decide (a = c)) as [->|Hne]; naive_solver.
Qed.

Lemma needs_quotes_quoted value : needs_quotes value = true ↔ Spec.quoted value.
Proof.
  unfold needs_quotes, Spec.quoted, Spec.quoting_chars, newline.
  rewrite !orb_true_iff, !includes_char, Exists_exists.
  setoid_rewrite elem_of_cons. setoid_rewrite elem_of_cons.
  setoid_rewrite elem_of_cons. setoid_rewrite elem_of_cons.
  setoid_rewrite elem_of_nil. naive_solver.
Qed.

Lemma string_of_list_ascii_app (l1 l2 : list ascii) :
  String.string_of_list_ascii (l1 ++ l2)
  = String.string_of_list_ascii l1 +:+ String.string_of_list_ascii l2.
Proof. induction l1 as [|c l1 IH]; simpl; [done|]. by rewrite IH. Qed.

Lemma replace_all_escaped value :
  Js.replace_all Js.dquote (String "\"%char (String Js.dquote EmptyString)) value
  = Spec.escaped value.
Proof.
  unfold Spec.escaped, Spec.chars. induction value as [|a value IH]; [done|].
  cbn [Js.replace_all String.list_ascii_of_string]. rewrite bind_cons.
  rewrite string_of_list_ascii_app, <- IH. by destruct (decide (a = Js.dquote)).
Qed.

(** The line the program writes is the line of the specification. *)
Lemma env_line_spec key value : env_line key value = Spec.line key value.
Proof.
  unfold env_line, Spec.line.
  pose proof (needs_quotes_quoted value) as H.
  destruct (needs_quotes value), (decide (Spec.quoted value)) as [Hq|Hq];
    try (by destruct H as [H1 H2]; first [exfalso; by apply Hq, H1 | by discriminate H2]).
  - by rewrite replace_all_escaped.
  - done.
Qed.

Lemma lines_of_cons table key ks :
  Spec.lines_of table (key :: ks)
  = match Spec.found_value table key with
    | Some v => Spec.line key v :: Spec.lines_of table ks
    | None => Spec.lines_of table ks
    end.
Proof. unfold Spec.lines_of. simpl. by destruct (Spec.found_value table key). Qed.

Lemma build_content_lines table keys ks content :
  (∀ k, k ∈ ks → k ∈ keys) →
  build_content (Spec.found_of table keys) ks content
  = content +:+ Spec.concat_lines (Spec.lines_of table ks).
Proof.
  revert content. induction ks as [|key ks IH]; intros content Hks; cbn [build_content].
  - unfold Spec.lines_of. simpl. by rewrite append_nil_r.
  - rewrite found_of_lookup, decide_True by (apply Hks; left).
    rewrite lines_of_cons.
    destruct (Spec.found_value table key) as [v|];
      rewrite IH by (intros k Hk; apply Hks; by right); [|done].
    by rewrite append_assoc, env_line_spec.
Qed.

End Content.

(** ** The file system *)
Section FileSystem.

Implicit Types (ns : gmap (list string) node) (cur loc d : list string).
Implicit Types (c : string) (comps rest : list string).

Ltac component c :=
  destruct (Fs.is_here c) eqn:?; [| destruct (Fs.is_up c) eqn:?].

Lemma node_at_snoc ns cur c : Fs.node_at ns (cur ++ [c]) = ns !! (cur ++ [c]).
Proof. by destruct cur. Qed.

Lemma parent_snoc cur c : Fs.parent (cur ++ [c]) = cur.
Proof. apply removelast_last. Qed.

Lemma grows_refl ns : Spec.grows ns ns.
Proof. intros loc. by left. Qed.

Lemma grows_trans ns1 ns2 ns3 :
  Spec.grows ns1 ns2 → Spec.grows ns2 ns3 → Spec.grows ns1 ns3.
Proof.
  intros H12 H23 loc. destruct (H12 loc) as [E|[E1 E2]], (H23 loc) as [F|[F1 F2]].
  - left. congruence.
  - right. split; congruence.
  - right. split; congruence.
  - congruence.
Qed.

Lemma grows_insert ns loc : ns !! loc = None → Spec.grows ns (<[loc := Dir]> ns).
Proof.
  intros H loc'. destruct (decide (loc = loc')) as [<-|Hne].
  - right. by rewrite lookup_insert_eq.
  - left. by rewrite lookup_insert_ne.
Qed.

Lemma grows_persists ns ns' : Spec.grows ns ns' → Spec.persists ns ns'.
Proof.
  intros H loc. destruct (H loc) as [E|[E _]]; rewrite E; [|done].
  destruct (ns !! loc) as [[|m x]|]; eauto.
Qed.

Lemma persists_write ns loc m content :
  Fs.node_at ns loc ≠ Some Dir → Spec.persists ns (<[loc := File m content]> ns).
Proof.
  intros H loc'. destruct (decide (loc = loc')) as [<-|Hne].
  - rewrite lookup_insert_eq.
    destruct (ns !! loc) as [[|m' x]|] eqn:E; [|eauto|done].
    destruct loc; simpl in H; congruence.
  - rewrite lookup_insert_ne by done. destruct (ns !! loc') as [[|m' x]|]; eauto.
Qed.

(** Resolution reads the text of the path only to choose its way. *)
Lemma resolve_lexical ns cur comps d :
  Fs.resolve ns cur comps = inr d → d = Spec.lexical cur comps.
Proof.
  revert cur. induction comps as [|c rest IH]; intros cur; simpl; [congruence|].
  component c; [apply IH | apply IH |].
  destruct (Fs.node_at ns (cur ++ [c])) as [[|m x]|]; [apply IH | | done].
  destruct rest; [|done]. simpl. congruence.
Qed.

Lemma locate_lexical ns cur comps loc :
  Fs.locate ns cur comps = inr loc → loc = Spec.lexical cur comps.
Proof.
  revert cur. induction comps as [|c rest IH]; intros cur; simpl; [done|].
  destruct rest as [|c' rest'].
  - simpl. component c; simpl; [done|done|congruence].
  - component c; [apply IH | apply IH |].
    destruct (Fs.node_at ns (cur ++ [c])) as [[|m x]|]; [apply IH | done | done].
Qed.

(** What exists keeps existing while objects persist. *)
Lemma resolve_persists ns ns' cur comps d :
  Spec.persists ns ns' →
  Fs.resolve ns cur comps = inr d → Fs.resolve ns' cur comps = inr d.
Proof.
  intros Hp. revert cur. induction comps as [|c rest IH]; intros cur; simpl; [done|].
  component c; [apply IH | apply IH |].
  rewrite !node_at_snoc. specialize (Hp (cur ++ [c])).
  destruct (ns !! (cur ++ [c])) as [[|m x]|]; [| |done].
  - rewrite Hp. apply IH.
  - destruct Hp as (m' & x' & ->). done.
Qed.

Lemma locate_persists ns ns' cur comps loc :
  Spec.persists ns ns' →
  Fs.locate ns cur comps = inr loc → Fs.locate ns' cur comps = inr loc.
Proof.
  intros Hp. revert cur. induction comps as [|c rest IH]; intros cur; simpl; [done|].
  destruct rest as [|c' rest']; [done|].
  component c; [apply IH | apply IH |].
  rewrite !node_at_snoc. specialize (Hp (cur ++ [c])).
  destruct (ns !! (cur ++ [c])) as [[|m x]|]; [|done|done].
  rewrite Hp. apply IH.
Qed.

(** A located file is found again by resolution. *)
Lemma locate_resolve ns cur comps loc m content :
  Fs.locate ns cur comps = inr loc → ns !! loc = Some (File m content) →
  Fs.resolve ns cur comps = inr loc.
Proof.
  revert cur. induction comps as [|c rest IH]; intros cur; simpl; [done|].
  destruct rest as [|c' rest'].
  - component c; simpl; [done|done|]. intros [= <-] H.
    by rewrite node_at_snoc, H.
  - component c; [apply IH | apply IH |].
    destruct (Fs.node_at ns (cur ++ [c])) as [[|m' x]|]; [apply IH | done | done].
Qed.

(** The directory of a located name is a directory. *)
Lemma dirs_above_parent ns cur : Spec.dirs_above ns cur → Spec.dirs_above ns (Fs.parent cur).
Proof.
  intros H pre Hpre. apply H. etrans; [exact Hpre|].
  destruct cur as [|x cur _] using rev_ind; [done|].
  rewrite parent_snoc. by apply prefix_app_r.
Qed.

Lemma prefix_snoc_inv (pre cur : list string) c :
  pre `prefix_of` cur ++ [c] → pre = cur ++ [c] ∨ pre `prefix_of` cur.
Proof.
  intros [k Hk]. destruct k as [|x k _] using rev_ind.
  - left. by rewrite app_nil_r in Hk.
  - right. rewrite app_assoc in Hk. apply app_inj_tail in Hk as [-> _].
    by apply prefix_app_r.
Qed.

Lemma dirs_above_snoc ns cur c :
  Spec.dirs_above ns cur → Fs.node_at ns (cur ++ [c]) = Some Dir →
  Spec.dirs_above ns (cur ++ [c]).
Proof.
  intros H Hc pre Hpre. apply prefix_snoc_inv in Hpre as [->|Hpre]; [done|by apply H].
Qed.

Lemma locate_parent ns cur comps loc :
  Spec.dirs_above ns cur → Fs.locate ns cur comps = inr loc →
  Fs.node_at ns (Fs.parent loc) = Some Dir.
Proof.
  revert cur. induction comps as [|c rest IH]; intros cur Hcur; simpl; [done|].
  destruct rest as [|c' rest'].
  - component c; simpl; [done|done|]. intros [= <-]. rewrite parent_snoc. by apply Hcur.
  - component c; [by apply IH | by apply IH, dirs_above_parent |].
    destruct (Fs.node_at ns (cur ++ [c])) as [[|m x]|] eqn:E; [|done|done].
    by apply IH, dirs_above_snoc.
Qed.

Lemma dirs_above_root ns : Spec.dirs_above ns [].
Proof. intros pre Hpre. by apply prefix_nil_inv in Hpre as ->. Qed.

(** [mkdir -p] adds directories and nothing else. *)
Lemma mkdirp_grows ns cur comps ns' :
  Fs.mkdirp ns cur comps = inr ns' → Spec.grows ns ns'.
Proof.
  revert ns cur. induction comps as [|c rest IH]; intros ns cur; simpl.
  - intros [= <-]. apply grows_refl.
  - component c; [apply IH | apply IH |].
    rewrite node_at_snoc.
    destruct (ns !! (cur ++ [c])) as [[|m x]|] eqn:E; [apply IH | done |].
    intros H. eapply grows_trans; [by apply grows_insert | by eapply IH].
Qed.

Lemma grows_dir ns ns' loc :
  Spec.grows ns ns' → ns !! loc = Some Dir → ns' !! loc = Some Dir.
Proof. intros H E. destruct (H loc) as [F|[F _]]; congruence. Qed.

(** After [mkdir -p] the directory exists. *)
Lemma mkdirp_resolve ns cur comps ns' :
  Fs.mkdirp ns cur comps = inr ns' →
  Fs.resolve ns' cur comps = inr (Spec.lexical cur comps).
Proof.
  revert ns cur. induction comps as [|c rest IH]; intros ns cur; simpl; [done|].
  component c; [apply IH | apply IH |].
  rewrite !node_at_snoc.
  destruct (ns !! (cur ++ [c])) as [[|m x]|] eqn:E; [| done |]; intros H.
  - rewrite (grows_dir _ _ _ (mkdirp_grows _ _ _ _ H) E). by eapply IH.
  - rewrite (grows_dir _ _ (cur ++ [c]) (mkdirp_grows _ _ _ _ H))
      by apply lookup_insert_eq.
    by eapply IH.
Qed.

(** [mkdir -p] of what exists changes nothing. *)
Lemma resolve_mkdirp ns cur comps d ns' :
  Fs.resolve ns cur comps = inr d → Fs.mkdirp ns cur comps = inr ns' → ns' = ns.
Proof.
  revert cur. induction comps as [|c rest IH]; intros cur; simpl; [congruence|].
  component c; [apply IH | apply IH |].
  destruct (Fs.node_at ns (cur ++ [c])) as [[|m x]|]; [apply IH | done | done].
Qed.

(** *** The file system shows a caller the kinds of its objects only *)

Lemma shape_cases (o1 o2 : option node) :
  Spec.shape_of <$> o1 = Spec.shape_of <$> o2 →
  (o1 = None ∧ o2 = None) ∨ (o1 = Some Dir ∧ o2 = Some Dir)
  ∨ (∃ m1 x1 m2 x2, o1 = Some (File m1 x1) ∧ o2 = Some (File m2 x2)).
Proof.
  destruct o1 as [[|m1 [s1|t1]]|], o2 as [[|m2 [s2|t2]]|]; simpl; intros H;
    try discriminate H; eauto 10.
Qed.

Lemma same_shape_snoc ns1 ns2 cur c :
  Spec.same_shape ns1 ns2 →
  (Fs.node_at ns1 (cur ++ [c]) = None ∧ Fs.node_at ns2 (cur ++ [c]) = None)
  ∨ (Fs.node_at ns1 (cur ++ [c]) = Some Dir ∧ Fs.node_at ns2 (cur ++ [c]) = Some Dir)
  ∨ (∃ m1 x1 m2 x2, Fs.node_at ns1 (cur ++ [c]) = Some (File m1 x1)
                    ∧ Fs.node_at ns2 (cur ++ [c]) = Some (File m2 x2)).
Proof. intros H. rewrite !node_at_snoc. apply shape_cases, H. Qed.

Lemma same_shape_resolve ns1 ns2 cur comps :
  Spec.same_shape ns1 ns2 → Fs.resolve ns1 cur comps = Fs.resolve ns2 cur comps.
Proof.
  intros H. revert cur. induction comps as [|c rest IH]; intros cur; simpl; [done|].
  component c; [apply IH | apply IH |].
  destruct (same_shape_snoc ns1 ns2 cur c H)
    as [[-> ->]|[[-> ->]|(m1 & x1 & m2 & x2 & -> & ->)]]; [done | apply IH | done].
Qed.

Lemma same_shape_locate ns1 ns2 cur comps :
  Spec.same_shape ns1 ns2 → Fs.locate ns1 cur comps = Fs.locate ns2 cur comps.
Proof.
  intros H. revert cur. induction comps as [|c rest IH]; intros cur; simpl; [done|].
  destruct rest as [|c' rest']; [done|].
  component c; [apply IH | apply IH |].
  destruct (same_shape_snoc ns1 ns2 cur c H)
    as [[-> ->]|[[-> ->]|(m1 & x1 & m2 & x2 & -> & ->)]]; [done | apply IH | done].
Qed.

Lemma same_shape_insert ns1 ns2 loc (n1 n2 : node) :
  Spec.same_shape ns1 ns2 → Spec.shape_of n1 = Spec.shape_of n2 →
  Spec.same_shape (<[loc := n1]> ns1) (<[loc := n2]> ns2).
Proof.
  intros H Hn loc'. destruct (decide (loc = loc')) as [<-|Hne].
  - rewrite !lookup_insert_eq. simpl. by rewrite Hn.
  - rewrite !lookup_insert_ne by done. apply H.
Qed.

Lemma same_shape_mkdirp ns1 ns2 cur comps :
  Spec.same_shape ns1 ns2 →
  match Fs.mkdirp ns1 cur comps, Fs.mkdirp ns2 cur comps with
  | inr ns1', inr ns2' => Spec.same_shape ns1' ns2'
  | inl code1, inl code2 => code1 = code2
  | _, _ => False
  end.
Proof.
  revert ns1 ns2 cur. induction comps as [|c rest IH]; intros ns1 ns2 cur H; simpl;
    [done|].
  component c; [by apply IH | by apply IH |].
  destruct (same_shape_snoc ns1 ns2 cur c H)
    as [[-> ->]|[[-> ->]|(m1 & x1 & m2 & x2 & -> & ->)]]; [| by apply IH | done].
  by apply IH, same_shape_insert.
Qed.

End FileSystem.

(** ** [writeEnvFile] *)
Section WriteEnv.

Implicit Types (db : Database) (w : world) (table : list Secret).
Implicit Types (keys : list string) (envPath p content : string).

(** The mode of the file after a write at [loc]. *)
Local Abbreviation mode_after ns loc w :=
  (match Fs.node_at ns loc with
   | Some (File old _) => old
   | _ => N.ldiff mode_600 (umask w)
   end).

(** The last three statements of [writeEnvFile] before its [return]. *)
Local Abbreviation emit envPath content result :=
  (bind (Fs.existsSync (Path.dirname envPath)) (λ dir_exists,
   bind (if negb dir_exists then Fs.mkdirSync_recursive (Path.dirname envPath)
         else ret ()) (λ _,
   bind (Fs.writeFileSync envPath content mode_600) (λ _, ret result)))).

Lemma set_nodes_same w : Fs.set_nodes w (nodes w) = w.
Proof. by destruct w. Qed.

Lemma writeEnvFile_relative db keys envPath w :
  Path.isAbsolute envPath = false →
  writeEnvFile db keys envPath w = (inl (JsError "Path must be absolute"), w).
Proof. intros H. unfold writeEnvFile. by rewrite H. Qed.

Lemma writeEnvFile_unreadable db keys envPath w :
  Path.isAbsolute envPath = true → Sql.records db w = None →
  writeEnvFile db keys envPath w
  = (inl (SqliteError (Sql.unreadable (nodes w !! db_file db))), w).
Proof.
  intros Habs H. unfold writeEnvFile. rewrite Habs. simpl.
  unfold bind at 1. by rewrite (prepare_fail _ _ H).
Qed.

(** With the table read, [writeEnvFile] is its file-system part run on
    the lines, the count and the missing keys of the specification. *)
Lemma writeEnvFile_run db keys envPath w table :
  Path.isAbsolute envPath = true → Sql.records db w = Some table →
  writeEnvFile db keys envPath w
  = emit envPath (Spec.concat_lines (Spec.lines_of table keys))
      {| success := true;
         written := Spec.distinct_found table keys;
         missing := Spec.missing_of table keys |} w.
Proof.
  intros Habs H. unfold writeEnvFile. rewrite Habs. simpl.
  unfold bind at 1. rewrite (prepare_ok _ _ _ H).
  unfold bind at 1. rewrite (lookup_keys_ok _ _ _ _ _ table) by done.
  rewrite (right_id_L ∅ (∪)), build_content_lines by done.
  by rewrite size_found_of.
Qed.

Lemma writeFileSync_ok p content mode w loc :
  Fs.locate (nodes w) (Fs.start w p) (Path.split p) = inr loc →
  Fs.node_at (nodes w) loc ≠ Some Dir →
  Fs.writeFileSync p content mode w
  = (inr (), Fs.set_nodes w
               (<[loc := File (match Fs.node_at (nodes w) loc with
                               | Some (File old _) => old
                               | _ => N.ldiff mode (umask w)
                               end) (Text content)]> (nodes w))).
Proof.
  intros Hloc Hn. unfold Fs.writeFileSync. rewrite Hloc.
  by destruct (Fs.node_at (nodes w) loc) as [[|old x]|].
Qed.

Lemma writeFileSync_inv p content mode w w' :
  Fs.writeFileSync p content mode w = (inr (), w') →
  ∃ loc, Fs.locate (nodes w) (Fs.start w p) (Path.split p) = inr loc
         ∧ Fs.node_at (nodes w) loc ≠ Some Dir.
Proof.
  unfold Fs.writeFileSync.
  destruct (Fs.locate _ _ _) as [code|loc]; [done|]. intros H. exists loc.
  split; [done|]. by destruct (Fs.node_at (nodes w) loc) as [[|old x]|].
Qed.

Lemma writeFileSync_throws p content mode w e w' :
  Fs.writeFileSync p content mode w = (inl e, w') →
  w' = w ∧ ∃ code, e = SystemError code "open" p.
Proof.
  unfold Fs.writeFileSync.
  destruct (Fs.locate _ _ _) as [code|loc]; [intros [= <- <-]; eauto|].
  destruct (Fs.node_at (nodes w) loc) as [[|old x]|]; [|done|done].
  intros [= <- <-]; eauto.
Qed.

(** The directory is ensured: [existsSync], then [mkdirSync] if needed. *)
Local Abbreviation ensure dir :=
  (bind (Fs.existsSync dir) (λ dir_exists,
     if negb dir_exists then Fs.mkdirSync_recursive dir else ret ())).

Lemma ensure_ok dir w ns1 :
  Fs.mkdirp (nodes w) (Fs.start w dir) (Path.split dir) = inr ns1 →
  ensure dir w = (inr (), Fs.set_nodes w ns1).
Proof.
  intros H. unfold bind, Fs.existsSync.
  destruct (Fs.resolve _ _ _) as [code|d] eqn:E; simpl.
  - unfold Fs.mkdirSync_recursive. by rewrite H.
  - rewrite (resolve_mkdirp _ _ _ _ _ E H). unfold ret. by rewrite set_nodes_same.
Qed.

Lemma ensure_inv dir w w1 :
  ensure dir w = (inr (), w1) →
  ∃ ns1, w1 = Fs.set_nodes w ns1 ∧ Spec.grows (nodes w) ns1
         ∧ ∃ d, Fs.resolve ns1 (Fs.start w dir) (Path.split dir) = inr d.
Proof.
  unfold bind, Fs.existsSync.
  destruct (Fs.resolve _ _ _) as [code|d] eqn:E; simpl.
  - unfold Fs.mkdirSync_recursive.
    destruct (Fs.mkdirp _ _ _) as [code'|ns1] eqn:F; [done|]. intros [= <-].
    exists ns1. split; [done|]. split; [by eapply mkdirp_grows|].
    eexists. by eapply mkdirp_resolve.
  - intros [= <-]. exists (nodes w). rewrite set_nodes_same.
    split; [done|]. split; [apply grows_refl|]. by exists d.
Qed.

Lemma ensure_throws dir w e w1 :
  ensure dir w = (inl e, w1) → w1 = w ∧ ∃ code, e = SystemError code "mkdir" dir.
Proof.
  unfold bind, Fs.existsSync.
  destruct (Fs.resolve _ _ _) as [code|d]; simpl; [|done].
  unfold Fs.mkdirSync_recursive.
  destruct (Fs.mkdirp _ _ _) as [code'|ns1]; [|done]. intros [= <- <-]. eauto.
Qed.

Lemma emit_unfold envPath content (result : WriteEnvResult) w :
  emit envPath content result w
  = match ensure (Path.dirname envPath) w with
    | (inl e, w1) => (inl e, w1)
    | (inr _, w1) =>
        match Fs.writeFileSync envPath content mode_600 w1 with
        | (inl e, w2) => (inl e, w2)
        | (inr _, w2) => (inr result, w2)
        end
    end.
Proof.
  unfold bind. destruct (Fs.existsSync _ w) as [[e|b] w0]; [done|].
  destruct (if negb b then _ else _) as [[e|u] w1]; [done|].
  by destruct (Fs.writeFileSync _ _ _ w1) as [[e|u'] w2].
Qed.

Lemma emit_writable envPath content (result : WriteEnvResult) w ns1 loc :
  Fs.mkdirp (nodes w) (Fs.start w (Path.dirname envPath))
    (Path.split (Path.dirname envPath)) = inr ns1 →
  Fs.locate ns1 (Fs.start w envPath) (Path.split envPath) = inr loc →
  Fs.node_at ns1 loc ≠ Some Dir →
  emit envPath content result w
  = (inr result,
     Fs.set_nodes w (<[loc := File (mode_after ns1 loc w) (Text content)]> ns1)).
Proof.
  intros Hmk Hloc Hn. rewrite emit_unfold, (ensure_ok _ _ _ Hmk).
  by rewrite (writeFileSync_ok _ _ _ _ loc).
Qed.

Lemma emit_inv envPath content (result r : WriteEnvResult) w w' :
  emit envPath content result w = (inr r, w') →
  r = result ∧
  ∃ ns1 loc,
    Spec.grows (nodes w) ns1
    ∧ (∃ d, Fs.resolve ns1 (Fs.start w (Path.dirname envPath))
              (Path.split (Path.dirname envPath)) = inr d)
    ∧ Fs.locate ns1 (Fs.start w envPath) (Path.split envPath) = inr loc
    ∧ Fs.node_at ns1 loc ≠ Some Dir
    ∧ w' = Fs.set_nodes w (<[loc := File (mode_after ns1 loc w) (Text content)]> ns1).
Proof.
  rewrite emit_unfold.
  destruct (ensure _ w) as [[e|[]] w1] eqn:E; [done|].
  apply ensure_inv in E as (ns1 & -> & Hg & Hd).
  destruct (Fs.writeFileSync _ _ _ _) as [[e|[]] w2] eqn:F; [done|].
  intros [= <- <-]. split; [done|]. exists ns1.
  destruct (writeFileSync_inv _ _ _ _ _ F) as (loc & Hloc & Hn). exists loc.
  rewrite (writeFileSync_ok _ _ _ _ loc Hloc Hn) in F. by injection F as <-.
Qed.

Lemma emit_throws envPath content (result : WriteEnvResult) w e w' :
  emit envPath content result w = (inl e, w') →
  (∃ code syscall p, e = SystemError code syscall p)
  ∧ ∃ ns1, w' = Fs.set_nodes w ns1 ∧ Spec.grows (nodes w) ns1.
Proof.
  rewrite emit_unfold.
  destruct (ensure _ w) as [[e1|[]] w1] eqn:E.
  - intros [= <- <-]. apply ensure_throws in E as (-> & code & ->).
    split; [eauto|]. exists (nodes w). rewrite set_nodes_same. split; [done|apply grows_refl].
  - apply ensure_inv in E as (ns1 & -> & Hg & _).
    destruct (Fs.writeFileSync _ _ _ _) as [[e2|[]] w2] eqn:F; [|done].
    intros [= <- <-]. apply writeFileSync_throws in F as (-> & code & ->).
    split; [eauto|]. by exists ns1.
Qed.

Lemma emit_existing envPath content (result : WriteEnvResult) w d loc m x :
  Fs.resolve (nodes w) (Fs.start w (Path.dirname envPath))
    (Path.split (Path.dirname envPath)) = inr d →
  Fs.locate (nodes w) (Fs.start w envPath) (Path.split envPath) = inr loc →
  Fs.node_at (nodes w) loc = Some (File m x) →
  emit envPath content result w
  = (inr result, Fs.set_nodes w (<[loc := File m (Text content)]> (nodes w))).
Proof.
  intros Hd Hloc Hn. unfold bind at 1, Fs.existsSync. rewrite Hd. simpl.
  unfold bind at 1, ret at 1. unfold bind at 1.
  rewrite (writeFileSync_ok _ _ _ _ loc Hloc) by congruence. by rewrite Hn.
Qed.

End WriteEnv.

(** ** What a response depends on *)
Section Confidentiality.

Implicit Types (db : Database) (w : world) (table t : list Secret).

Lemma metadata_names t1 t2 :
  Spec.metadata <$> t1 = Spec.metadata <$> t2 → name <$> t1 = name <$> t2.
Proof.
  intros H. apply (f_equal (fmap fst)) in H.
  by rewrite <- !list_fmap_compose in H.
Qed.

(** The rows of a search are computed from names and descriptions. *)
Lemma select_search_metadata p1 p2 t1 t2 :
  Spec.metadata <$> t1 = Spec.metadata <$> t2 →
  Sqlite.select_search p1 p2 t1 = Sqlite.select_search p1 p2 t2.
Proof.
  intros H. unfold Sqlite.select_search. f_equal.
  revert t2 H. induction t1 as [|r1 t1 IH]; intros [|r2 t2] H; try done.
  rewrite !fmap_cons in H. injection H as Hn Hd Ht. rewrite !filter_cons.
  assert (Sqlite.search_where p1 p2 r1 = Sqlite.search_where p1 p2 r2) as ->.
  { unfold Sqlite.search_where. by rewrite Hn, Hd. }
  assert (Sqlite.select_name_description r1 = Sqlite.select_name_description r2) as E.
  { unfold Sqlite.select_name_description. by rewrite Hn, Hd. }
  destruct (decide (Sqlite.search_where p1 p2 r2 = true));
    rewrite ?fmap_cons, ?E, (IH t2 Ht); done.
Qed.

Lemma missing_of_names t1 t2 keys :
  name <$> t1 = name <$> t2 → Spec.missing_of t1 keys = Spec.missing_of t2 keys.
Proof.
  intros H. unfold Spec.missing_of. apply list_filter_iff. intros k.
  unfold Spec.stored. by rewrite H.
Qed.

Lemma distinct_found_names t1 t2 keys :
  name <$> t1 = name <$> t2 → Spec.distinct_found t1 keys = Spec.distinct_found t2 keys.
Proof.
  intros H. unfold Spec.distinct_found. do 2 f_equal. apply list_filter_iff. intros k.
  unfold Spec.stored. by rewrite H.
Qed.

(** Worlds that agree show the engine the same public table, or fail it
    with the same message. *)
Lemma agree_records db w1 w2 :
  Spec.agree w1 w2 →
  match Sql.records db w1, Sql.records db w2 with
  | Some t1, Some t2 => Spec.metadata <$> t1 = Spec.metadata <$> t2
  | None, None =>
      Sql.unreadable (nodes w1 !! db_file db) = Sql.unreadable (nodes w2 !! db_file db)
  | _, _ => False
  end.
Proof.
  intros [_ H]. specialize (H (db_file db)). unfold Sql.records.
  destruct (nodes w1 !! db_file db) as [[|m1 [s1|t1]]|],
           (nodes w2 !! db_file db) as [[|m2 [s2|t2]]|];
    simpl in *; try done; try discriminate H. by injection H.
Qed.

Lemma searchSecrets_agree db q w1 w2 :
  Spec.agree w1 w2 → (searchSecrets db q w1).1 = (searchSecrets db q w2).1.
Proof.
  intros H. apply (agree_records db) in H.
  destruct (Sql.records db w1) as [t1|] eqn:E1, (Sql.records db w2) as [t2|] eqn:E2;
    try done.
  - rewrite (searchSecrets_ok _ _ _ _ E1), (searchSecrets_ok _ _ _ _ E2). simpl.
    f_equal. by apply select_search_metadata.
  - rewrite (searchSecrets_fail _ _ _ E1), (searchSecrets_fail _ _ _ E2). simpl.
    by rewrite H.
Qed.

Lemma agree_start w1 w2 p : Spec.agree w1 w2 → Fs.start w1 p = Fs.start w2 p.
Proof. intros [H _]. unfold Fs.start. by rewrite H. Qed.

Lemma agree_set_nodes w1 w2 ns1 ns2 :
  Spec.agree w1 w2 → Spec.same_shape ns1 ns2 →
  Spec.agree (Fs.set_nodes w1 ns1) (Fs.set_nodes w2 ns2).
Proof. by intros [H _] Hs. Qed.

Lemma same_shape_node_at ns1 ns2 loc :
  Spec.same_shape ns1 ns2 →
  Spec.shape_of <$> Fs.node_at ns1 loc = Spec.shape_of <$> Fs.node_at ns2 loc.
Proof. intros H. destruct loc; [done|apply H]. Qed.

Lemma writeFileSync_agree p c1 c2 mode w1 w2 :
  Spec.agree w1 w2 →
  (Fs.writeFileSync p c1 mode w1).1 = (Fs.writeFileSync p c2 mode w2).1
  ∧ Spec.agree (Fs.writeFileSync p c1 mode w1).2 (Fs.writeFileSync p c2 mode w2).2.
Proof.
  intros H. unfold Fs.writeFileSync.
  rewrite (agree_start _ _ _ H), (same_shape_locate _ (nodes w2)) by apply H.
  destruct (Fs.locate _ _ _) as [code|loc]; [done|].
  pose proof (same_shape_node_at _ _ loc (proj2 H)) as Hn.
  destruct (shape_cases _ _ Hn) as [[-> ->]|[[-> ->]|(m1 & x1 & m2 & x2 & -> & ->)]];
    simpl; (split; [done|]); try done;
    apply agree_set_nodes; try done; by apply same_shape_insert; [apply H|].
Qed.

Lemma existsSync_agree p w1 w2 :
  Spec.agree w1 w2 →
  (Fs.existsSync p w1).1 = (Fs.existsSync p w2).1
  ∧ (Fs.existsSync p w1).2 = w1 ∧ (Fs.existsSync p w2).2 = w2.
Proof.
  intros H. unfold Fs.existsSync.
  rewrite (agree_start _ _ _ H), (same_shape_resolve _ (nodes w2)) by apply H.
  by destruct (Fs.resolve _ _ _).
Qed.

Lemma mkdirSync_agree p w1 w2 :
  Spec.agree w1 w2 →
  (Fs.mkdirSync_recursive p w1).1 = (Fs.mkdirSync_recursive p w2).1
  ∧ Spec.agree (Fs.mkdirSync_recursive p w1).2 (Fs.mkdirSync_recursive p w2).2.
Proof.
  intros H. unfold Fs.mkdirSync_recursive. rewrite (agree_start _ _ _ H).
  pose proof (same_shape_mkdirp _ _ (Fs.start w2 p) (Path.split p) (proj2 H)) as Hm.
  destruct (Fs.mkdirp (nodes w1) _ _) as [code1|ns1],
           (Fs.mkdirp (nodes w2) _ _) as [code2|ns2]; try done; simpl.
  - by rewrite Hm.
  - split; [done|]. by apply agree_set_nodes.
Qed.

Lemma bind_alike {A B} (m1 m2 : M A) (k1 k2 : A → M B) w1 w2 :
  Spec.alike (m1 w1) (m2 w2) →
  (∀ a w1' w2', Spec.agree w1' w2' → Spec.alike (k1 a w1') (k2 a w2')) →
  Spec.alike (bind m1 k1 w1) (bind m2 k2 w2).
Proof.
  unfold bind, Spec.alike.
  destruct (m1 w1) as [[e1|a1] w1'], (m2 w2) as [[e2|a2] w2']; simpl;
    intros [E Hw] Hk; try discriminate E.
  - injection E as ->. by split.
  - injection E as ->. by apply Hk.
Qed.

Lemma try_catch_alike {A} (m1 m2 : M A) (h : exn → M A) w1 w2 :
  Spec.alike (m1 w1) (m2 w2) →
  (∀ e w1' w2', Spec.agree w1' w2' → Spec.alike (h e w1') (h e w2')) →
  Spec.alike (try_catch m1 h w1) (try_catch m2 h w2).
Proof.
  unfold try_catch, Spec.alike.
  destruct (m1 w1) as [[e1|a1] w1'], (m2 w2) as [[e2|a2] w2']; simpl;
    intros [E Hw] Hh; try discriminate E.
  - injection E as ->. by apply Hh.
  - by split.
Qed.

Lemma ret_alike {A} (a : A) w1 w2 :
  Spec.agree w1 w2 → Spec.alike (ret a w1) (ret a w2).
Proof. by split. Qed.

Lemma writeEnvFile_agree db keys envPath w1 w2 :
  Spec.agree w1 w2 →
  Spec.alike (writeEnvFile db keys envPath w1) (writeEnvFile db keys envPath w2).
Proof.
  intros H. destruct (Path.isAbsolute envPath) eqn:Habs.
  2:{ by rewrite !writeEnvFile_relative. }
  pose proof (agree_records db _ _ H) as Hr.
  destruct (Sql.records db w1) as [t1|] eqn:E1, (Sql.records db w2) as [t2|] eqn:E2;
    try done.
  2:{ rewrite !writeEnvFile_unreadable by done. split; [simpl; by rewrite Hr | done]. }
  rewrite (writeEnvFile_run _ _ _ _ _ Habs E1), (writeEnvFile_run _ _ _ _ _ Habs E2).
  apply metadata_names in Hr.
  rewrite (distinct_found_names _ _ _ Hr), (missing_of_names _ _ _ Hr).
  apply bind_alike.
  { destruct (existsSync_agree (Path.dirname envPath) _ _ H) as (E & F1 & F2).
    split; [done|]. by rewrite F1, F2. }
  intros b w1' w2' H'. apply bind_alike.
  { destruct (negb b); [by apply mkdirSync_agree | by apply ret_alike]. }
  intros _ w1'' w2'' H''. apply bind_alike; [by apply writeFileSync_agree|].
  intros _ ? ? ?. by apply ret_alike.
Qed.

Lemma callTool_agree db request w1 w2 :
  Spec.agree w1 w2 → Spec.alike (callTool db request w1) (callTool db request w2).
Proof.
  intros H. unfold callTool. apply try_catch_alike; [|intros; by apply ret_alike].
  unfold dispatch. repeat case_decide.
  - apply bind_alike; [|intros; by apply ret_alike].
    split; [by apply searchSecrets_agree | by rewrite !searchSecrets_world].
  - apply bind_alike; [by apply writeEnvFile_agree | intros; by apply ret_alike].
  - done.
Qed.

Lemma serve_agree db requests w1 w2 :
  Spec.agree w1 w2 → Spec.alike (serve db requests w1) (serve db requests w2).
Proof.
  revert w1 w2. induction requests as [|request rest IH]; intros w1 w2 H; simpl.
  - done.
  - apply bind_alike; [by apply callTool_agree|].
    intros response w1' w2' H'. apply bind_alike; [by apply IH|].
    intros; by apply ret_alike.
Qed.

End Confidentiality.

(** ** [search_secrets] *)
Section Search.

Implicit Types (db : Database) (w : world) (table : list Secret) (q x : string).

Lemma contains_ci_includes x q :
  Spec.contains_ci x q ↔ Js.includes (Js.toLowerCase x) (Js.toLowerCase q) = true.
Proof. unfold Spec.contains_ci. by rewrite includes_spec. Qed.

(** The application's filter is the search of the specification. *)
Lemma filter_matches_spec q r : filter_matches q r = true ↔ Spec.matches q r.
Proof.
  unfold filter_matches, Spec.matches. by rewrite orb_true_iff, !contains_ci_includes.
Qed.

#[global] Instance matches_dec q r : Decision (Spec.matches q r).
Proof.
  refine (cast_if (decide (filter_matches q r = true))); by rewrite <- filter_matches_spec.
Defined.

Lemma COALESCE_default (d : option string) :
  Sqlite.COALESCE d EmptyString = default EmptyString d.
Proof. by destruct d. Qed.

(** On a query without [%] and [_] the statement's condition is the
    application's. *)
Lemma search_where_plain q r :
  Spec.plain q →
  Sqlite.search_where ("%" +:+ Js.toLowerCase q +:+ "%")
    ("%" +:+ Js.toLowerCase q +:+ "%") r = filter_matches q r.
Proof.
  intros Hq. unfold Sqlite.search_where, filter_matches, Sqlite.LOWER.
  rewrite !(LIKE_substring q _ Hq) by apply lowered_toLowerCase.
  by rewrite COALESCE_default.
Qed.

Lemma searchSecrets_plain db q w table :
  Spec.plain q → Sql.records db w = Some table →
  searchSecrets db q w
  = (inr (Sqlite.order_by_name
            (Sqlite.select_name_description <$> filteredSecrets table q)), w).
Proof.
  intros Hq H. rewrite (searchSecrets_ok _ _ _ _ H).
  unfold Sqlite.select_search, filteredSecrets. do 4 f_equal.
  apply list_filter_iff. intros r. by rewrite search_where_plain.
Qed.

(** So, metacharacters apart, a search returns the records that contain
    the query, projected and in the order of their names. *)
Lemma searchSecrets_plain_spec db q w table :
  Spec.plain q → Sql.records db w = Some table →
  ∃ results,
    searchSecrets db q w = (inr results, w)
    ∧ StronglySorted Spec.by_name results
    ∧ results ≡ₚ Sqlite.select_name_description
                   <$> filter (λ r, Spec.matches q r) table.
Proof.
  intros Hq H. eexists. split; [by apply searchSecrets_plain|].
  split; [apply order_by_name_sorted|].
  rewrite order_by_name_perm. unfold filteredSecrets.
  erewrite list_filter_iff; [done|]. intros r. apply filter_matches_spec.
Qed.

Lemma LIKE_percent_true x pat :
  Sqlite.LIKE x pat = true → Sqlite.LIKE x (String "%"%char pat) = true.
Proof. intros H. by rewrite LIKE_percent, H. Qed.

Lemma toLowerCase_empty x : Js.toLowerCase x = EmptyString ↔ x = EmptyString.
Proof. by destruct x. Qed.

Lemma filter_all {A} (P : A → Prop) `{∀ a, Decision (P a)} (l : list A) :
  (∀ a, P a) → filter P l = l.
Proof.
  intros HP. induction l as [|a l IH]; [done|].
  by rewrite filter_cons, decide_True, IH.
Qed.

Lemma searchSecrets_percent db w table :
  Sql.records db w = Some table →
  searchSecrets db "%" w
  = (inr (Sqlite.order_by_name (Sqlite.select_name_description <$> table)), w).
Proof.
  intros H. rewrite (searchSecrets_ok _ _ _ _ H).
  unfold Sqlite.select_search. rewrite filter_all; [done|].
  intros r. unfold Sqlite.search_where.
  change ("%" +:+ Js.toLowerCase "%" +:+ "%") with "%%%".
  by rewrite (LIKE_percent_true _ "%%") by apply LIKE_percent_true, LIKE_any.
Qed.

Lemma searchSecrets_underscore db w table :
  Sql.records db w = Some table →
  searchSecrets db "_" w
  = (inr (Sqlite.order_by_name
            (Sqlite.select_name_description
               <$> filter (λ r, name r ≠ EmptyString
                                ∨ default EmptyString (description r) ≠ EmptyString)
                     table)), w).
Proof.
  intros H. rewrite (searchSecrets_ok _ _ _ _ H).
  unfold Sqlite.select_search. do 4 f_equal. apply list_filter_iff. intros r.
  unfold Sqlite.search_where, Sqlite.LOWER.
  change ("%" +:+ Js.toLowerCase "_" +:+ "%") with "%_%".
  rewrite !LIKE_some, COALESCE_default, orb_true_iff.
  repeat case_decide; rewrite toLowerCase_empty in *; naive_solver.
Qed.

End Search.

(** ** The effects of [write_env] on the file system *)
Section Effects.

Implicit Types (db : Database) (w : world) (table : list Secret).
Implicit Types (ns : gmap (list string) node) (loc cur : list string).

Lemma locate_snoc ns cur comps loc :
  Fs.locate ns cur comps = inr loc → ∃ cur' c, loc = cur' ++ [c].
Proof.
  revert cur. induction comps as [|c rest IH]; intros cur; simpl; [done|].
  destruct rest as [|c' rest'].
  - destruct (Fs.is_here c || Fs.is_up c); [done|]. intros [= <-]. eauto.
  - destruct (Fs.is_here c); [apply IH|]. destruct (Fs.is_up c); [apply IH|].
    destruct (Fs.node_at ns (cur ++ [c])) as [[|m x]|]; [apply IH | done | done].
Qed.

Lemma locate_node_at ns cur comps loc :
  Fs.locate ns cur comps = inr loc → Fs.node_at ns loc = ns !! loc.
Proof. intros H. apply locate_snoc in H as (cur' & c & ->). apply node_at_snoc. Qed.

Lemma persists_dir ns ns' loc :
  Spec.persists ns ns' → Fs.node_at ns loc = Some Dir → Fs.node_at ns' loc = Some Dir.
Proof.
  intros H. destruct loc as [|c loc]; [done|]. simpl. intros E.
  specialize (H (c :: loc)). by rewrite E in H.
Qed.

(** Mode [0o600], whatever the umask takes from it, gives nothing to
    group and others. *)
Lemma mode_600_owner_only (mask : N) : Spec.owner_only (N.ldiff mode_600 mask).
Proof.
  unfold Spec.owner_only. apply N.bits_inj. intros n.
  rewrite N.land_spec, N.ldiff_spec, N.bits_0.
  assert (N.testbit mode_600 n && N.testbit 63 n = false) as H.
  { rewrite <- N.land_spec. change (N.land mode_600 63) with 0%N. apply N.bits_0. }
  destruct (N.testbit mode_600 n), (N.testbit 63 n), (N.testbit mask n); done.
Qed.

Lemma start_absolute w p : Path.isAbsolute p = true → Fs.start w p = [].
Proof. unfold Fs.start. by intros ->. Qed.

(** What a successful [writeEnvFile] leaves behind. *)
Lemma writeEnvFile_effects db keys envPath w r w' :
  writeEnvFile db keys envPath w = (inr r, w') →
  ∃ table mode,
    Sql.records db w = Some table
    ∧ r = {| success := true;
             written := Spec.distinct_found table keys;
             missing := Spec.missing_of table keys |}
    ∧ Spec.is_directory w' (Fs.parent (Spec.location w envPath))
    ∧ (Fs.existsSync (Path.dirname envPath) w').1 = inr true
    ∧ Spec.file_at w' envPath
      = Some (mode, Text (Spec.concat_lines (Spec.lines_of table keys)))
    ∧ (nodes w !! Spec.location w envPath = None → mode = N.ldiff mode_600 (umask w))
    ∧ (∀ old x, nodes w !! Spec.location w envPath = Some (File old x) → mode = old).
Proof.
  intros H. destruct (Path.isAbsolute envPath) eqn:Habs.
  2:{ by rewrite writeEnvFile_relative in H. }
  destruct (Sql.records db w) as [table|] eqn:Hrec.
  2:{ by rewrite writeEnvFile_unreadable in H. }
  rewrite (writeEnvFile_run _ _ _ _ _ Habs Hrec) in H.
  apply emit_inv in H as (-> & ns1 & loc & Hg & [d Hd] & Hloc & Hn & ->).
  pose proof (locate_lexical _ _ _ _ Hloc) as Hlex. fold (Spec.location w envPath) in Hlex.
  pose proof (locate_node_at _ _ _ _ Hloc) as Hat.
  rewrite <- Hlex.
  set (mode := match Fs.node_at ns1 loc with
               | Some (File old _) => old
               | _ => N.ldiff mode_600 (umask w)
               end).
  set (content := Spec.concat_lines (Spec.lines_of table keys)).
  pose proof (persists_write ns1 loc mode (Text content) Hn) as Hp.
  exists table, mode. split; [done|]. split; [done|]. split; [|split; [|split; [|split]]].
  - unfold Spec.is_directory. simpl. eapply persists_dir; [exact Hp|].
    eapply locate_parent; [|exact Hloc]. rewrite start_absolute by done.
    apply dirs_above_root.
  - unfold Fs.existsSync. simpl.
    change (Fs.start (Fs.set_nodes w _) ?p) with (Fs.start w p).
    by rewrite (resolve_persists _ _ _ _ _ Hp Hd).
  - unfold Spec.file_at. simpl.
    change (Fs.start (Fs.set_nodes w _) ?p) with (Fs.start w p).
    rewrite (locate_resolve _ _ _ loc mode (Text content)).
    + by rewrite lookup_insert_eq.
    + by eapply locate_persists.
    + by rewrite lookup_insert_eq.
  - intros Hnone. subst mode. rewrite Hat.
    destruct (Hg loc) as [E|[_ E]]; [by rewrite E, Hnone|].
    rewrite Hat in Hn. congruence.
  - intros old x Hfile. subst mode. rewrite Hat.
    destruct (Hg loc) as [E|[E _]]; [by rewrite E, Hfile | congruence].
Qed.

(** The records of the store after directories were added and a file
    was written elsewhere. *)
Lemma records_grows db w ns1 :
  Spec.grows (nodes w) ns1 → Sql.records db (Fs.set_nodes w ns1) = Sql.records db w.
Proof.
  intros H. unfold Sql.records. simpl.
  destruct (H (db_file db)) as [->|[-> ->]]; done.
Qed.

Lemma records_write db w ns1 loc (n : node) :
  loc ≠ db_file db →
  Sql.records db (Fs.set_nodes w (<[loc := n]> ns1)) = Sql.records db (Fs.set_nodes w ns1).
Proof. intros H. unfold Sql.records. simpl. by rewrite lookup_insert_ne. Qed.

Lemma writeEnvFile_records db keys envPath w :
  Spec.location w envPath ≠ db_file db →
  Sql.records db (writeEnvFile db keys envPath w).2 = Sql.records db w.
Proof.
  intros Hne. destruct (Path.isAbsolute envPath) eqn:Habs.
  2:{ by rewrite writeEnvFile_relative. }
  destruct (Sql.records db w) as [table|] eqn:Hrec.
  2:{ by rewrite writeEnvFile_unreadable. }
  rewrite (writeEnvFile_run _ _ _ _ _ Habs Hrec).
  match goal with |- context [bind ?m ?k w] => destruct (bind m k w) as [[e|r] w'] eqn:E end.
  - apply emit_throws in E as (_ & ns1 & -> & Hg). simpl. by rewrite records_grows.
  - apply emit_inv in E as (_ & ns1 & loc & Hg & _ & Hloc & _ & ->). simpl.
    apply locate_lexical in Hloc. fold (Spec.location w envPath) in Hloc. subst loc.
    by rewrite records_write, records_grows.
Qed.

(** When the file system accepts the write, [writeEnvFile] returns. *)
Lemma writeEnvFile_writable db keys envPath w table :
  Path.isAbsolute envPath = true → Sql.records db w = Some table →
  Spec.writable w envPath →
  (writeEnvFile db keys envPath w).1
  = inr {| success := true;
           written := Spec.distinct_found table keys;
           missing := Spec.missing_of table keys |}.
Proof.
  intros Habs Hrec (ns1 & loc & Hmk & Hloc & Hn).
  rewrite (writeEnvFile_run _ _ _ _ _ Habs Hrec).
  by rewrite (emit_writable _ _ _ _ ns1 loc).
Qed.

End Effects.

(** ** The request handler *)
Section Handler.

Implicit Types (db : Database) (w : world) (request : Request.params).

Lemma callTool_returns db request w :
  ∃ response w', callTool db request w = (inr response, w').
Proof.
  unfold callTool, try_catch. destruct (dispatch db request w) as [[e|r] w']; eauto.
Qed.

Lemma callTool_catches db request w e w' :
  dispatch db request w = (inl e, w') →
  callTool db request w
  = (inr {| text := "Error: " +:+ exn_message e; isError := true |}, w').
Proof. intros H. unfold callTool, try_catch. by rewrite H. Qed.

Lemma dispatch_unknown db request w :
  Request.name request ≠ "search_secrets" → Request.name request ≠ "write_env" →
  dispatch db request w = (inl (JsError ("Unknown tool: " +:+ Request.name request)), w).
Proof. intros H1 H2. unfold dispatch. by rewrite !decide_False. Qed.

Lemma dispatch_search db args w :
  dispatch db {| Request.name := "search_secrets"; Request.args := args |} w
  = match searchSecrets db (Request.query args) w with
    | (inl e, w') => (inl e, w')
    | (inr results, w') => (inr {| text := JSON_stringify results; isError := false |}, w')
    end.
Proof. done. Qed.

Lemma dispatch_write db args w :
  dispatch db {| Request.name := "write_env"; Request.args := args |} w
  = match writeEnvFile db (Request.keys args) (Request.path args) w with
    | (inl e, w') => (inl e, w')
    | (inr result, w') =>
        (inr {| text := write_env_message result (Request.path args);
                isError := false |}, w')
    end.
Proof. done. Qed.

Lemma serve_answers_all db requests w :
  ∃ responses w',
    serve db requests w = (inr responses, w') ∧ length responses = length requests.
Proof.
  revert w. induction requests as [|request rest IH]; intros w; simpl.
  - by exists [], w.
  - unfold bind at 1. destruct (callTool_returns db request w) as (response & w1 & ->).
    unfold bind at 1. destruct (IH w1) as (responses & w2 & -> & Hlen).
    exists (response :: responses), w2. simpl. by rewrite Hlen.
Qed.

End Handler.

Lemma example_agree : Spec.agree Example.machine Example.other_machine.
Proof.
  split; [done|]. unfold Example.machine, Example.other_machine, Example.files. simpl.
  repeat (apply same_shape_insert; [|done]). done.
Qed.

Lemma example_records : Sql.records Example.db Example.machine = Some Example.table.
Proof. by vm_compute. Qed.

Lemma example_writable : Spec.writable Example.machine "/work/app/.env".
Proof.
  exists (<[ ["work"; "app"] := Dir ]> (Example.files Example.table)),
         ["work"; "app"; ".env"].
  split; [by vm_compute|]. split; [by vm_compute|]. by vm_compute.
Qed.

(* ===================================================================== *)
(** * Part IV: the claims *)
(* ===================================================================== *)

(** C1.  No response carries a secret's value: in two worlds that agree on
    the name and the description of every record (and on the kinds of the
    files) but differ in values, [searchSecrets] returns the same rows for
    every query, [writeEnvFile] the same structured result (or the same
    exception) for every keys and path, the handler the same response for
    every request, and the server the same responses over every session. *)
Theorem responses_do_not_depend_on_values db w1 w2 :
  Spec.agree w1 w2 →
  (∀ query, (searchSecrets db query w1).1 = (searchSecrets db query w2).1)
  ∧ (∀ keys envPath,
       (writeEnvFile db keys envPath w1).1 = (writeEnvFile db keys envPath w2).1)
  ∧ (∀ request, (callTool db request w1).1 = (callTool db request w2).1)
  ∧ (∀ requests, (serve db requests w1).1 = (serve db requests w2).1).
Proof.
  intros H. split; [|split; [|split]].
  - intros query. by apply searchSecrets_agree.
  - intros keys envPath. by apply writeEnvFile_agree.
  - intros request. by apply callTool_agree.
  - intros requests. by apply serve_agree.
Qed.

Lemma responses_do_not_depend_on_values_witness :
  Spec.agree Example.machine Example.other_machine
  ∧ Example.table ≠ Example.other_table
  ∧ (searchSecrets Example.db "key" Example.machine).1
    = (searchSecrets Example.db "key" Example.other_machine).1
  ∧ (writeEnvFile Example.db ["A"; "B"] "/work/.env" Example.machine).1
    = (writeEnvFile Example.db ["A"; "B"] "/work/.env" Example.other_machine).1.
Proof.
  split; [exact example_agree|]. split; [discriminate|].
  pose proof (responses_do_not_depend_on_values Example.db _ _ example_agree)
    as (Hs & Hw & _).
  split; [exact (Hs "key") | exact (Hw ["A"; "B"] "/work/.env")].
Defined.

(** C2, evaluated.  On a store in which no name and no description has a
    percent sign, the query [%] returns every record, while no record
    contains the query as a substring and the application's own filter
    finds none: the search matches a [LIKE] pattern, it does not look for
    the query's text. *)
Theorem search_percent_is_a_wildcard :
  (searchSecrets Example.db "%" Example.machine).1
  = inr [ {| sr_name := "A"; sr_description := None |};
          {| sr_name := "API_KEY";
             sr_description := Some "Key of the payment API" |} ]
  ∧ Forall (λ r, ¬ Spec.matches "%" r) Example.table
  ∧ filteredSecrets Example.table "%" = [].
Proof.
  split; [by vm_compute|]. split; [|by vm_compute].
  repeat constructor; rewrite <- filter_matches_spec; by vm_compute.
Qed.

(** C3, amended.  For an absolute path, [writeEnvFile] returns
    [{success: true, written, missing}] with [written] the number of
    distinct key names found by exact match and [missing] the keys not
    found, in order and as often as given, whenever the file system accepts
    the write; it returns nothing else, and throws only what the file
    system throws. *)
Theorem write_env_result db keys envPath w table :
  Path.isAbsolute envPath = true → Sql.records db w = Some table →
  (Spec.writable w envPath →
   (writeEnvFile db keys envPath w).1
   = inr {| success := true;
            written := Spec.distinct_found table keys;
            missing := Spec.missing_of table keys |})
  ∧ match (writeEnvFile db keys envPath w).1 with
    | inr result =>
        result = {| success := true;
                    written := Spec.distinct_found table keys;
                    missing := Spec.missing_of table keys |}
    | inl (SystemError _ _ _) => True
    | inl _ => False
    end.
Proof.
  intros Habs Hrec. rewrite (writeEnvFile_run _ _ _ _ _ Habs Hrec). split.
  - intros (ns1 & loc & Hmk & Hloc & Hn). by rewrite (emit_writable _ _ _ _ ns1 loc).
  - match goal with |- context [bind ?m ?k w] => destruct (bind m k w) as [[e|r] w'] eqn:E end.
    + apply emit_throws in E as [(code & syscall & p & ->) _]. done.
    + by apply emit_inv in E as [-> _].
Qed.

Lemma write_env_result_witness :
  (writeEnvFile Example.db ["A"; "B"] "/work/app/.env" Example.machine).1
  = inr {| success := true; written := 1; missing := ["B"] |}.
Proof.
  exact (proj1 (write_env_result Example.db ["A"; "B"] "/work/app/.env"
                  Example.machine Example.table eq_refl example_records)
           example_writable).
Defined.

(** C3 as stated fails: [/work] is an absolute path and [A] is stored, yet
    [write_env(["A","B"], "/work")] returns no result, for [/work] is a
    directory. *)
Lemma write_env_on_a_directory_throws :
  Path.isAbsolute "/work" = true
  ∧ (writeEnvFile Example.db ["A"; "B"] "/work" Example.machine).1
    = inl (SystemError EISDIR "open" "/work")
  ∧ (writeEnvFile Example.db ["A"; "B"] "/work" Example.machine).1
    ≠ inr {| success := true; written := 1; missing := ["B"] |}.
Proof. split; [done|]. split; [by vm_compute|]. by vm_compute. Qed.

(** C4.  The content [writeEnvFile] builds is, in the order of the
    request, one line for each occurrence of a key that is found and
    nothing for a key that is not; a line is [NAME="ESCAPED"] with every
    double quote of the value escaped when the value has a space, a double
    quote, a single quote or a newline, and [NAME=VALUE] otherwise; the
    value [he said "hi"] under [NAME] gives [NAME="he said \"hi\""]. *)
Theorem content_is_the_lines_of_the_found_keys db keys w table :
  Sql.records db w = Some table →
  (∃ found missing,
     lookup_keys {| stmt_db := db |} keys ∅ [] w = (inr (found, missing), w)
     ∧ build_content found keys EmptyString
       = Spec.concat_lines (Spec.lines_of table keys))
  ∧ (∀ key value, env_line key value = Spec.line key value)
  ∧ env_line "NAME" Example.he_said_hi = Example.he_said_hi_line.
Proof.
  intros Hrec. split; [|split; [apply env_line_spec | by vm_compute]].
  eexists _, _. split; [by apply lookup_keys_ok|].
  by rewrite (right_id_L ∅ (∪)), build_content_lines.
Qed.

Lemma content_is_the_lines_of_the_found_keys_witness :
  ∃ found missing,
    lookup_keys {| stmt_db := Example.db |} ["A"; "B"; "API_KEY"; "A"] ∅ []
      Example.machine = (inr (found, missing), Example.machine)
    ∧ build_content found ["A"; "B"; "API_KEY"; "A"] EmptyString
      = Spec.concat_lines
          [ "A=1234" +:+ newline;
            "API_KEY=" +:+ String Js.dquote ("sk live 123" +:+ String Js.dquote newline);
            "A=1234" +:+ newline ].
Proof.
  exact (proj1 (content_is_the_lines_of_the_found_keys Example.db
                  ["A"; "B"; "API_KEY"; "A"] Example.machine Example.table
                  example_records)).
Defined.

(** C5.  For a path that is not absolute, [writeEnvFile] throws the error
    of message [Path must be absolute], the handler answers with an
    error-flagged response carrying it, and the world is what it was: no
    directory made, no file made, written or truncated. *)
Theorem relative_path_is_rejected db query keys envPath w :
  Path.isAbsolute envPath = false →
  writeEnvFile db keys envPath w = (inl (JsError "Path must be absolute"), w)
  ∧ callTool db {| Request.name := "write_env";
                   Request.args := {| Request.query := query;
                                      Request.keys := keys;
                                      Request.path := envPath |} |} w
    = (inr {| text := "Error: Path must be absolute"; isError := true |}, w)
  ∧ Spec.file_at (writeEnvFile db keys envPath w).2 envPath = Spec.file_at w envPath.
Proof.
  intros Habs. pose proof (writeEnvFile_relative db keys envPath w Habs) as H.
  split; [done|]. split; [|by rewrite H].
  rewrite (callTool_catches _ _ _ (JsError "Path must be absolute") w); [done|].
  rewrite dispatch_write. simpl. by rewrite H.
Qed.

Lemma relative_path_is_rejected_witness :
  Path.isAbsolute "app/.env" = false
  ∧ writeEnvFile Example.db ["A"] "app/.env" Example.machine
    = (inl (JsError "Path must be absolute"), Example.machine)
  ∧ Spec.file_at Example.machine "app/.env" = None.
Proof.
  split; [reflexivity|].
  destruct (relative_path_is_rejected Example.db EmptyString ["A"] "app/.env"
              Example.machine eq_refl) as (H & _ & _).
  split; [exact H | by vm_compute].
Defined.

(** C6, evaluated.  [/work/.env] exists with mode [0o644]; after a
    successful [write_env(["A"], "/work/.env")] the file holds the new
    content and still has mode [0o644], which lets group and others read
    it: the mode given to [writeFileSync] applies to a file it creates
    only. *)
Theorem existing_file_keeps_its_mode :
  (writeEnvFile Example.db ["A"] "/work/.env" Example.machine).1
  = inr {| success := true; written := 1; missing := [] |}
  ∧ Spec.file_at Example.machine "/work/.env" = Some (420%N, Text "OLD=1")
  ∧ Spec.file_at (writeEnvFile Example.db ["A"] "/work/.env" Example.machine).2
      "/work/.env"
    = Some (420%N, Text ("A=1234" +:+ newline))
  ∧ ¬ Spec.owner_only 420.
Proof. repeat split; by vm_compute. Qed.

(** C7.  The handler never throws: whatever the request, it returns a
    response.  A tool name other than the two gives an error-flagged
    response; an exception thrown by [searchSecrets] or [writeEnvFile]
    gives an error-flagged response carrying its message; and the server
    answers every request of a session, whatever failed before. *)
Theorem failures_become_error_responses db :
  (∀ request w, ∃ response w', callTool db request w = (inr response, w'))
  ∧ (∀ request w,
       Request.name request ≠ "search_secrets" →
       Request.name request ≠ "write_env" →
       callTool db request w
       = (inr {| text := "Error: " +:+ "Unknown tool: " +:+ Request.name request;
                 isError := true |}, w))
  ∧ (∀ args w e w',
       searchSecrets db (Request.query args) w = (inl e, w') →
       callTool db {| Request.name := "search_secrets"; Request.args := args |} w
       = (inr {| text := "Error: " +:+ exn_message e; isError := true |}, w'))
  ∧ (∀ args w e w',
       writeEnvFile db (Request.keys args) (Request.path args) w = (inl e, w') →
       callTool db {| Request.name := "write_env"; Request.args := args |} w
       = (inr {| text := "Error: " +:+ exn_message e; isError := true |}, w'))
  ∧ (∀ requests w,
       ∃ responses w',
         serve db requests w = (inr responses, w')
         ∧ length responses = length requests).
Proof.
  split; [apply callTool_returns|]. split; [|split; [|split]].
  - intros request w H1 H2.
    rewrite (callTool_catches _ _ _ _ _ (dispatch_unknown _ _ _ H1 H2)). done.
  - intros args w e w' H. apply callTool_catches. by rewrite dispatch_search, H.
  - intros args w e w' H. apply callTool_catches. by rewrite dispatch_write, H.
  - apply serve_answers_all.
Qed.

Lemma failures_become_error_responses_witness :
  callTool Example.db
    {| Request.name := "delete_secret";
       Request.args := {| Request.query := EmptyString; Request.keys := [];
                          Request.path := EmptyString |} |} Example.machine
  = (inr {| text := "Error: Unknown tool: delete_secret"; isError := true |},
     Example.machine)
  ∧ callTool Example.db
      {| Request.name := "write_env";
         Request.args := {| Request.query := EmptyString; Request.keys := ["A"];
                            Request.path := "/work" |} |} Example.machine
    = (inr {| text := "Error: EISDIR: illegal operation on a directory, open '/work'";
              isError := true |}, Example.machine).
Proof.
  destruct (failures_become_error_responses Example.db) as (_ & Hu & _ & Hw & _).
  split.
  - refine (Hu {| Request.name := "delete_secret" |} Example.machine _ _); discriminate.
  - refine (Hw {| Request.keys := ["A"]; Request.path := "/work" |} Example.machine
              (SystemError EISDIR "open" "/work") Example.machine _).
    by vm_compute.
Defined.

(** C8, amended.  [searchSecrets] leaves the whole world as it was, and
    [writeEnvFile], whether it returns or throws, leaves the records of
    the store as they were whenever its path does not name the database
    file itself. *)
Theorem store_is_only_read db keys envPath query w :
  Spec.location w envPath ≠ db_file db →
  (searchSecrets db query w).2 = w
  ∧ Sql.records db (writeEnvFile db keys envPath w).2 = Sql.records db w.
Proof.
  intros Hne. split; [apply searchSecrets_world | by apply writeEnvFile_records].
Qed.

Lemma store_is_only_read_witness :
  Spec.location Example.machine "/work/.env" ≠ db_file Example.db
  ∧ Sql.records Example.db
      (writeEnvFile Example.db ["A"; "API_KEY"] "/work/.env" Example.machine).2
    = Some Example.table.
Proof.
  assert (Spec.location Example.machine "/work/.env" ≠ db_file Example.db) as Hne
    by (vm_compute; discriminate).
  split; [exact Hne|].
  destruct (store_is_only_read Example.db ["A"; "API_KEY"] "/work/.env" EmptyString
              Example.machine Hne) as [_ H].
  exact (eq_trans H example_records).
Defined.

(** C8 as stated fails: [write_env([], "/data/secrets.db")] succeeds and
    writes over the database file; the records are gone. *)
Lemma write_env_can_overwrite_the_database :
  (writeEnvFile Example.db [] "/data/secrets.db" Example.machine).1
  = inr {| success := true; written := 0; missing := [] |}
  ∧ Sql.records Example.db Example.machine = Some Example.table
  ∧ Sql.records Example.db
      (writeEnvFile Example.db [] "/data/secrets.db" Example.machine).2 = None
  ∧ Sql.records Example.db
      (writeEnvFile Example.db [] "/data/secrets.db" Example.machine).2
    ≠ Sql.records Example.db Example.machine.
Proof. repeat split; by vm_compute. Qed.

(** C9.  The query goes into the [LIKE] pattern as it is, so [%] and [_]
    are wildcards: the query [%] returns every record of every store, the
    query [_] every record whose name or description is not empty, [_]
    standing for any one character; so it is on the example store, whose
    names and descriptions have no percent sign. *)
Theorem like_metacharacters_are_wildcards :
  (∀ db w table,
     Sql.records db w = Some table →
     searchSecrets db "%" w
     = (inr (Sqlite.order_by_name (Sqlite.select_name_description <$> table)), w))
  ∧ (∀ db w table,
       Sql.records db w = Some table →
       searchSecrets db "_" w
       = (inr (Sqlite.order_by_name
                 (Sqlite.select_name_description
                    <$> filter (λ r, name r ≠ EmptyString
                                     ∨ default EmptyString (description r)
                                       ≠ EmptyString) table)), w))
  ∧ (∀ c x pattern,
       Sqlite.LIKE (String c x) (String "_"%char pattern) = Sqlite.LIKE x pattern)
  ∧ Forall (λ r, ("%"%char ∉ Spec.chars (name r))
                 ∧ ("%"%char ∉ Spec.chars (default EmptyString (description r))))
      Example.table
  ∧ (searchSecrets Example.db "%" Example.machine).1
    = inr (Sqlite.order_by_name (Sqlite.select_name_description <$> Example.table))
  ∧ (searchSecrets Example.db "_" Example.machine).1
    = inr (Sqlite.order_by_name (Sqlite.select_name_description <$> Example.table)).
Proof.
  split; [apply searchSecrets_percent|]. split; [apply searchSecrets_underscore|].
  split; [apply LIKE_underscore|]. split; [|split; by vm_compute].
  refine (bool_decide_unpack _ _). by vm_compute.
Qed.

Lemma like_metacharacters_are_wildcards_witness :
  searchSecrets Example.db "%" Example.machine
  = (inr [ {| sr_name := "A"; sr_description := None |};
           {| sr_name := "API_KEY";
              sr_description := Some "Key of the payment API" |} ],
     Example.machine).
Proof.
  exact (proj1 like_metacharacters_are_wildcards Example.db Example.machine
           Example.table example_records).
Defined.

(** C10, amended.  With no keys and an absolute path that the file system
    accepts, [writeEnvFile] returns [{success: true, written: 0,
    missing: []}]; afterwards the directory of the path exists, the file
    at the path exists and is empty, and, where no object was at the
    path's location before, the file has mode [0o600] less the umask,
    which gives nothing to group and others. *)
Theorem write_env_without_keys db envPath w table :
  Path.isAbsolute envPath = true → Sql.records db w = Some table →
  Spec.writable w envPath →
  ∃ w' mode,
    writeEnvFile db [] envPath w
    = (inr {| success := true; written := 0; missing := [] |}, w')
    ∧ Spec.is_directory w' (Fs.parent (Spec.location w envPath))
    ∧ (Fs.existsSync (Path.dirname envPath) w').1 = inr true
    ∧ Spec.file_at w' envPath = Some (mode, Text EmptyString)
    ∧ (nodes w !! Spec.location w envPath = None →
       mode = N.ldiff mode_600 (umask w) ∧ Spec.owner_only mode).
Proof.
  intros Habs Hrec Hw.
  pose proof (writeEnvFile_writable db [] envPath w table Habs Hrec Hw) as H.
  destruct (writeEnvFile db [] envPath w) as [r w'] eqn:E. simpl in H. subst r.
  destruct (writeEnvFile_effects _ _ _ _ _ _ E)
    as (table' & mode & Hrec' & _ & Hdir & Hex & Hfile & Hnew & _).
  exists w', mode. split; [done|]. split; [done|]. split; [done|]. split; [done|].
  intros Hnone. rewrite (Hnew Hnone). split; [done|apply mode_600_owner_only].
Qed.

Lemma write_env_without_keys_witness :
  ∃ w' mode,
    writeEnvFile Example.db [] "/work/app/.env" Example.machine
    = (inr {| success := true; written := 0; missing := [] |}, w')
    ∧ Spec.is_directory w' ["work"; "app"]
    ∧ (Fs.existsSync "/work/app" w').1 = inr true
    ∧ Spec.file_at w' "/work/app/.env" = Some (mode, Text EmptyString)
    ∧ (nodes Example.machine !! ["work"; "app"; ".env"] = None →
       mode = N.ldiff mode_600 18 ∧ Spec.owner_only mode).
Proof.
  exact (write_env_without_keys Example.db "/work/app/.env" Example.machine
           Example.table eq_refl example_records example_writable).
Defined.

(** C10 as stated fails: [/work] is an absolute path, yet
    [write_env([], "/work")] does not succeed, for [/work] is a directory;
    nothing is written. *)
Lemma write_env_without_keys_can_fail :
  Path.isAbsolute "/work" = true
  ∧ writeEnvFile Example.db [] "/work" Example.machine
    = (inl (SystemError EISDIR "open" "/work"), Example.machine).
Proof. split; [done | by vm_compute]. Qed.

(* ===================================================================== *)
(** * Part V: further properties of the program *)
(* ===================================================================== *)

(** ** More on [searchSecrets] *)
Section SearchMore.

Implicit Types (db : Database) (w : world) (table : list Secret) (q : string).

Lemma select_search_submseteq p1 p2 table :
  Sqlite.select_search p1 p2 table ⊆+ Sqlite.select_name_description <$> table.
Proof.
  unfold Sqlite.select_search. rewrite order_by_name_perm.
  apply sublist_submseteq, fmap_sublist, sublist_filter.
Qed.

Lemma searchSecrets_inv db q w results w' :
  searchSecrets db q w = (inr results, w') →
  w' = w
  ∧ ∃ table, Sql.records db w = Some table
             ∧ results = Sqlite.select_search ("%" +:+ Js.toLowerCase q +:+ "%")
                           ("%" +:+ Js.toLowerCase q +:+ "%") table.
Proof.
  destruct (Sql.records db w) as [table|] eqn:H.
  - rewrite (searchSecrets_ok _ _ _ _ H). intros [= <- <-]. eauto.
  - by rewrite (searchSecrets_fail _ _ _ H).
Qed.

Lemma plain_empty : Spec.plain EmptyString.
Proof. split; apply not_elem_of_nil. Qed.

Lemma filteredSecrets_empty table : filteredSecrets table EmptyString = table.
Proof.
  unfold filteredSecrets. apply filter_all. intros r. unfold filter_matches.
  by rewrite includes_empty.
Qed.

End SearchMore.

(** X1.  Whatever the query, wildcards included, a search that returns
    leaves the world as it was and returns rows in the order of their
    names, each of them the name and description of a record of the table,
    no record more often than the table has it. *)
Theorem search_returns_stored_rows_in_order db query w results w' :
  searchSecrets db query w = (inr results, w') →
  w' = w
  ∧ StronglySorted Spec.by_name results
  ∧ ∃ table, Sql.records db w = Some table
             ∧ results ⊆+ Sqlite.select_name_description <$> table.
Proof.
  intros H. apply searchSecrets_inv in H as (-> & table & Hrec & ->).
  split; [done|]. split; [apply order_by_name_sorted|].
  exists table. split; [done|apply select_search_submseteq].
Qed.

Lemma search_returns_stored_rows_in_order_witness :
  StronglySorted Spec.by_name
    [ {| sr_name := "API_KEY"; sr_description := Some "Key of the payment API" |} ].
Proof.
  assert (searchSecrets Example.db "kEy" Example.machine
          = (inr [ {| sr_name := "API_KEY";
                      sr_description := Some "Key of the payment API" |} ],
             Example.machine)) as H by (by vm_compute).
  exact (proj1 (proj2 (search_returns_stored_rows_in_order _ _ _ _ _ H))).
Defined.

(** X2.  For a query without [%] and [_], a search returns exactly the
    records whose name or description contains the query, letter case
    apart, as rows in the order of their names: the rows of the records
    the desktop application's filter keeps. *)
Theorem plain_search_is_the_substring_search db q w table :
  Spec.plain q → Sql.records db w = Some table →
  ∃ results,
    searchSecrets db q w = (inr results, w)
    ∧ StronglySorted Spec.by_name results
    ∧ results ≡ₚ Sqlite.select_name_description
                   <$> filter (λ r, Spec.matches q r) table
    ∧ results ≡ₚ Sqlite.select_name_description <$> filteredSecrets table q.
Proof.
  intros Hq Hrec.
  destruct (searchSecrets_plain_spec db q w table Hq Hrec) as (results & H & Hs & Hp).
  exists results. split; [done|]. split; [done|]. split; [done|].
  rewrite (searchSecrets_plain _ _ _ _ Hq Hrec) in H. injection H as <-.
  apply order_by_name_perm.
Qed.

Lemma plain_search_is_the_substring_search_witness :
  ∃ results,
    searchSecrets Example.db "aPi" Example.machine = (inr results, Example.machine)
    ∧ StronglySorted Spec.by_name results
    ∧ results ≡ₚ Sqlite.select_name_description
                   <$> filter (λ r, Spec.matches "aPi" r) Example.table
    ∧ results ≡ₚ Sqlite.select_name_description
                   <$> filteredSecrets Example.table "aPi".
Proof.
  refine (plain_search_is_the_substring_search Example.db "aPi" Example.machine
            Example.table _ example_records).
  refine (bool_decide_unpack _ _). by vm_compute.
Defined.

(** X3.  The empty query returns every record of the table, in the order
    of the names. *)
Theorem empty_query_returns_everything db w table :
  Sql.records db w = Some table →
  searchSecrets db EmptyString w
  = (inr (Sqlite.order_by_name (Sqlite.select_name_description <$> table)), w).
Proof.
  intros Hrec. rewrite (searchSecrets_plain _ _ _ _ plain_empty Hrec).
  by rewrite filteredSecrets_empty.
Qed.

Lemma empty_query_returns_everything_witness :
  searchSecrets Example.db EmptyString Example.machine
  = (inr [ {| sr_name := "A"; sr_description := None |};
           {| sr_name := "API_KEY";
              sr_description := Some "Key of the payment API" |} ],
     Example.machine).
Proof.
  exact (empty_query_returns_everything Example.db Example.machine Example.table
           example_records).
Defined.

(** ** More on [writeEnvFile] *)
Section WriteMore.

Implicit Types (db : Database) (w : world) (table : list Secret).
Implicit Types (keys : list string) (k key : string).

Lemma length_lines_of table keys :
  length (Spec.lines_of table keys) = length (filter (Spec.stored table) keys).
Proof.
  induction keys as [|key keys IH]; [done|].
  rewrite lines_of_cons, filter_cons.
  destruct (Spec.found_value table key) as [v|] eqn:E.
  - rewrite decide_True by (apply found_value_stored; by rewrite E). simpl. by rewrite IH.
  - rewrite decide_False by (by apply found_value_None). done.
Qed.

Lemma length_filter_split {A} (P : A → Prop) `{∀ a, Decision (P a)} (l : list A) :
  length (filter P l) + length (filter (λ a, ¬ P a) l) = length l.
Proof.
  induction l as [|a l IH]; [done|]. rewrite !filter_cons.
  destruct (decide (P a)).
  - rewrite decide_False by tauto. simpl. lia.
  - rewrite decide_True by done. simpl. lia.
Qed.

Lemma length_remove_dups_set (l : list string) :
  length (remove_dups l) = size (list_to_set l : gset string).
Proof.
  rewrite <- (size_list_to_set (C := gset string) (remove_dups l))
    by apply NoDup_remove_dups.
  f_equal. apply set_eq. intros x.
  by rewrite !elem_of_list_to_set, elem_of_remove_dups.
Qed.

Lemma distinct_split (P : string → Prop) `{∀ a, Decision (P a)} (l : list string) :
  length (remove_dups (filter P l)) + length (remove_dups (filter (λ a, ¬ P a) l))
  = length (remove_dups l).
Proof.
  rewrite !length_remove_dups_set, <- size_union.
  - f_equal. apply set_eq. intros x.
    rewrite elem_of_union, !elem_of_list_to_set, !list_elem_of_filter.
    destruct (decide (P x)); tauto.
  - intros x. rewrite !elem_of_list_to_set, !list_elem_of_filter. tauto.
Qed.

Lemma length_remove_dups_le (l : list string) : length (remove_dups l) ≤ length l.
Proof.
  induction l as [|x l IH]; simpl; [done|]. case_decide; simpl; lia.
Qed.

Lemma remove_dups_NoDup (l : list string) : NoDup l → remove_dups l = l.
Proof.
  induction 1 as [|x l Hx Hl IH]; simpl; [done|].
  case_decide; [done|]. by rewrite IH.
Qed.

Lemma lines_of_ext t1 t2 keys :
  (∀ k, k ∈ keys → Spec.findExact t1 k = Spec.findExact t2 k) →
  Spec.lines_of t1 keys = Spec.lines_of t2 keys.
Proof.
  induction keys as [|key keys IH]; intros H; [done|].
  rewrite !lines_of_cons. unfold Spec.found_value.
  rewrite (H key) by left. rewrite IH; [done|]. intros k Hk. apply H. by right.
Qed.

Lemma stored_ext t1 t2 k :
  Spec.findExact t1 k = Spec.findExact t2 k → Spec.stored t1 k ↔ Spec.stored t2 k.
Proof. intros H. by rewrite <- !findExact_stored, H. Qed.

Lemma filter_ext_in {A} (P Q : A → Prop) `{∀ a, Decision (P a)} `{∀ a, Decision (Q a)}
    (l : list A) :
  (∀ a, a ∈ l → P a ↔ Q a) → filter P l = filter Q l.
Proof.
  induction l as [|a l IH]; intros H'; [done|]. rewrite !filter_cons.
  rewrite IH by (intros b Hb; apply H'; by right).
  destruct (decide (P a)) as [HP|HP], (decide (Q a)) as [HQ|HQ]; try done;
    exfalso; [apply HQ | apply HP]; by apply (H' a); [left|].
Qed.

Lemma filter_none_in {A} (P : A → Prop) `{∀ a, Decision (P a)} (l : list A) :
  (∀ a, a ∈ l → ¬ P a) → filter P l = [].
Proof.
  induction l as [|a l IH]; intros H'; [done|].
  rewrite filter_cons, decide_False by (apply H'; left).
  apply IH. intros b Hb. apply H'. by right.
Qed.

Lemma filter_all_in {A} (P : A → Prop) `{∀ a, Decision (P a)} (l : list A) :
  (∀ a, a ∈ l → P a) → filter P l = l.
Proof.
  induction l as [|a l IH]; intros H'; [done|].
  rewrite filter_cons, decide_True by (apply H'; left).
  f_equal. apply IH. intros b Hb. apply H'. by right.
Qed.

(** The frame of [writeEnvFile]: away from the location its path names,
    an object stays what it was, or a directory appears where nothing
    was. *)
Lemma writeEnvFile_frame db keys envPath w :
  umask (writeEnvFile db keys envPath w).2 = umask w
  ∧ cwd (writeEnvFile db keys envPath w).2 = cwd w
  ∧ ∀ loc, loc ≠ Spec.location w envPath →
      nodes (writeEnvFile db keys envPath w).2 !! loc = nodes w !! loc
      ∨ (nodes w !! loc = None
         ∧ nodes (writeEnvFile db keys envPath w).2 !! loc = Some Dir).
Proof.
  destruct (Path.isAbsolute envPath) eqn:Habs.
  2:{ rewrite writeEnvFile_relative by done. simpl. eauto. }
  destruct (Sql.records db w) as [table|] eqn:Hrec.
  2:{ rewrite writeEnvFile_unreadable by done. simpl. eauto. }
  rewrite (writeEnvFile_run _ _ _ _ _ Habs Hrec).
  match goal with |- context [bind ?m ?k w] => destruct (bind m k w) as [[e|r] w'] eqn:E end.
  - apply emit_throws in E as (_ & ns1 & -> & Hg). simpl.
    split; [done|]. split; [done|]. intros loc _. apply Hg.
  - apply emit_inv in E as (_ & ns1 & loc0 & Hg & _ & Hloc & _ & ->). simpl.
    apply locate_lexical in Hloc. fold (Spec.location w envPath) in Hloc. subst loc0.
    split; [done|]. split; [done|]. intros loc Hne.
    rewrite lookup_insert_ne by done. apply Hg.
Qed.

(** What a failed [writeEnvFile] leaves behind: directories at most. *)
Lemma writeEnvFile_throws db keys envPath w e w' :
  writeEnvFile db keys envPath w = (inl e, w') →
  (e = JsError "Path must be absolute" ∧ w' = w)
  ∨ (∃ m, e = SqliteError m ∧ w' = w)
  ∨ (∃ code syscall p ns1,
       e = SystemError code syscall p ∧ w' = Fs.set_nodes w ns1
       ∧ Spec.grows (nodes w) ns1).
Proof.
  destruct (Path.isAbsolute envPath) eqn:Habs.
  2:{ rewrite writeEnvFile_relative by done. intros [= <- <-]. by left. }
  destruct (Sql.records db w) as [table|] eqn:Hrec.
  2:{ rewrite writeEnvFile_unreadable by done. intros [= <- <-]. right. left. eauto. }
  rewrite (writeEnvFile_run _ _ _ _ _ Habs Hrec). intros E.
  apply emit_throws in E as ((code & syscall & p & ->) & ns1 & -> & Hg).
  right. right. eauto 10.
Qed.

End WriteMore.

(** X4.  After a successful [writeEnvFile] every key of the request is
    accounted for once: each occurrence gave a line of the file or an entry
    of [missing], each distinct name is counted in [written] or listed in
    [missing]; [written] is at most the number of lines, and is that
    number when no key is repeated. *)
Theorem found_and_missing_partition_the_keys db keys envPath w r w' :
  writeEnvFile db keys envPath w = (inr r, w') →
  ∃ table mode,
    Sql.records db w = Some table
    ∧ Spec.file_at w' envPath
      = Some (mode, Text (Spec.concat_lines (Spec.lines_of table keys)))
    ∧ length (Spec.lines_of table keys) + length (missing r) = length keys
    ∧ written r + length (remove_dups (missing r)) = length (remove_dups keys)
    ∧ written r ≤ length (Spec.lines_of table keys)
    ∧ (NoDup keys → written r = length (Spec.lines_of table keys)).
Proof.
  intros H. apply writeEnvFile_effects in H
    as (table & mode & Hrec & -> & _ & _ & Hfile & _ & _).
  exists table, mode. split; [done|]. split; [done|]. simpl.
  rewrite length_lines_of. unfold Spec.missing_of, Spec.distinct_found.
  split; [apply length_filter_split|]. split; [apply distinct_split|].
  split; [apply length_remove_dups_le|].
  intros Hnd. by rewrite remove_dups_NoDup by by apply NoDup_filter.
Qed.

Lemma found_and_missing_partition_the_keys_witness :
  ∃ table mode,
    Sql.records Example.db Example.machine = Some table
    ∧ Spec.file_at
        (writeEnvFile Example.db ["A"; "B"; "A"] "/work/.env" Example.machine).2
        "/work/.env"
      = Some (mode, Text (Spec.concat_lines (Spec.lines_of table ["A"; "B"; "A"])))
    ∧ length (Spec.lines_of table ["A"; "B"; "A"]) + length ["B"] = 3
    ∧ 1 + length (remove_dups ["B"]) = length (remove_dups ["A"; "B"; "A"])
    ∧ 1 ≤ length (Spec.lines_of table ["A"; "B"; "A"])
    ∧ (NoDup ["A"; "B"; "A"] → 1 = length (Spec.lines_of table ["A"; "B"; "A"])).
Proof.
  assert (writeEnvFile Example.db ["A"; "B"; "A"] "/work/.env" Example.machine
          = (inr {| success := true; written := 1; missing := ["B"] |},
             (writeEnvFile Example.db ["A"; "B"; "A"] "/work/.env" Example.machine).2))
    as H by (by vm_compute).
  exact (found_and_missing_partition_the_keys _ _ _ _ _ _ H).
Defined.

(** X5.  The names a search returns can be given to [write_env] as they
    are: none of them is missing, and [written] counts each of them once. *)
Theorem searched_names_are_found db query envPath w results w0 r w' :
  searchSecrets db query w = (inr results, w0) →
  writeEnvFile db (sr_name <$> results) envPath w = (inr r, w') →
  missing r = [] ∧ written r = length (remove_dups (sr_name <$> results)).
Proof.
  intros Hs Hw. apply searchSecrets_inv in Hs as (_ & table & Hrec & ->).
  apply writeEnvFile_effects in Hw as (table' & _ & Hrec' & -> & _).
  assert (table' = table) as -> by congruence. simpl.
  set (results := Sqlite.select_search _ _ table).
  assert (∀ k, k ∈ sr_name <$> results → Spec.stored table k) as Hall.
  { intros k Hk. apply list_elem_of_fmap in Hk as (r & -> & Hr).
    pose proof (elem_of_submseteq _ _ _ Hr (select_search_submseteq _ _ table)) as Hr'.
    apply list_elem_of_fmap in Hr' as (s & -> & Hs). unfold Spec.stored.
    apply list_elem_of_fmap. by exists s. }
  unfold Spec.missing_of, Spec.distinct_found. split.
  - apply filter_none_in. intros k Hk Hn. by apply Hn, Hall.
  - by rewrite filter_all_in.
Qed.

Lemma searched_names_are_found_witness :
  missing {| success := true; written := 2; missing := [] |} = []
  ∧ 2 = length (remove_dups ["A"; "API_KEY"]).
Proof.
  assert (searchSecrets Example.db "a" Example.machine
          = (inr [ {| sr_name := "A"; sr_description := None |};
                   {| sr_name := "API_KEY";
                      sr_description := Some "Key of the payment API" |} ],
             Example.machine)) as Hs by (by vm_compute).
  assert (writeEnvFile Example.db ["A"; "API_KEY"] "/work/.env" Example.machine
          = (inr {| success := true; written := 2; missing := [] |},
             (writeEnvFile Example.db ["A"; "API_KEY"] "/work/.env"
                Example.machine).2)) as Hw by (by vm_compute).
  exact (searched_names_are_found Example.db "a" "/work/.env" Example.machine
           _ _ _ _ Hs Hw).
Defined.

(** X6.  When none of the keys is stored, a [write_env] that the file
    system accepts is still a success: it reports zero written and every
    key missing, the handler's response is not flagged as an error, and the
    file at the path is left empty, whatever it held. *)
Theorem unknown_keys_leave_an_empty_file db query keys envPath w r w' table :
  Sql.records db w = Some table →
  (∀ k, k ∈ keys → ¬ Spec.stored table k) →
  writeEnvFile db keys envPath w = (inr r, w') →
  r = {| success := true; written := 0; missing := keys |}
  ∧ (∃ mode, Spec.file_at w' envPath = Some (mode, Text EmptyString))
  ∧ callTool db {| Request.name := "write_env";
                   Request.args := {| Request.query := query;
                                      Request.keys := keys;
                                      Request.path := envPath |} |} w
    = (inr {| text := write_env_message r envPath; isError := false |}, w').
Proof.
  intros Hrec Hnone H.
  assert (callTool db {| Request.name := "write_env";
                         Request.args := {| Request.query := query;
                                            Request.keys := keys;
                                            Request.path := envPath |} |} w
          = (inr {| text := write_env_message r envPath; isError := false |}, w'))
    as Hcall.
  { unfold callTool, try_catch. rewrite dispatch_write. simpl. by rewrite H. }
  apply writeEnvFile_effects in H
    as (table' & mode & Hrec' & -> & _ & _ & Hfile & _ & _).
  assert (table' = table) as -> by congruence.
  assert (Spec.lines_of table keys = []) as Hlines.
  { apply length_zero_iff_nil. rewrite length_lines_of.
    rewrite filter_none_in; [done|]. intros k Hk. by apply Hnone. }
  rewrite Hlines in Hfile. split; [|split; [by exists mode | done]].
  unfold Spec.distinct_found, Spec.missing_of.
  rewrite (filter_none_in (Spec.stored table)) by (intros k Hk; by apply Hnone).
  by rewrite filter_all_in by (intros k Hk; by apply Hnone).
Qed.

Lemma unknown_keys_leave_an_empty_file_witness :
  Spec.file_at Example.machine "/work/.env" = Some (420%N, Text "OLD=1")
  ∧ {| success := true; written := 0; missing := ["B"; "api_key"] |}
    = {| success := true; written := 0; missing := ["B"; "api_key"] |}
  ∧ (∃ mode,
       Spec.file_at
         (writeEnvFile Example.db ["B"; "api_key"] "/work/.env" Example.machine).2
         "/work/.env" = Some (mode, Text EmptyString)).
Proof.
  split; [by vm_compute|].
  assert (writeEnvFile Example.db ["B"; "api_key"] "/work/.env" Example.machine
          = (inr {| success := true; written := 0; missing := ["B"; "api_key"] |},
             (writeEnvFile Example.db ["B"; "api_key"] "/work/.env"
                Example.machine).2)) as H by (by vm_compute).
  assert (∀ k, k ∈ ["B"; "api_key"] → ¬ Spec.stored Example.table k) as Hnone.
  { intros k Hk. apply (Forall_forall (λ k, ¬ Spec.stored Example.table k)
                          ["B"; "api_key"]); [|done].
    refine (bool_decide_unpack _ _). by vm_compute. }
  destruct (unknown_keys_leave_an_empty_file Example.db EmptyString _ _ _ _ _ _
              example_records Hnone H) as (Hr & Hf & _).
  split; [exact Hr | exact Hf].
Defined.

(** X7.  [writeEnvFile], whether it returns or throws, leaves the umask
    and the working directory as they were and touches no object but the
    one its path names: everywhere else a file or directory stays exactly
    what it was, and at most a directory appears where nothing was. *)
Theorem write_env_touches_one_location db keys envPath w :
  umask (writeEnvFile db keys envPath w).2 = umask w
  ∧ cwd (writeEnvFile db keys envPath w).2 = cwd w
  ∧ ∀ loc, loc ≠ Spec.location w envPath →
      nodes (writeEnvFile db keys envPath w).2 !! loc = nodes w !! loc
      ∨ (nodes w !! loc = None
         ∧ nodes (writeEnvFile db keys envPath w).2 !! loc = Some Dir).
Proof. apply writeEnvFile_frame. Qed.

Lemma write_env_touches_one_location_witness :
  nodes (writeEnvFile Example.db ["A"] "/work/app/.env" Example.machine).2
    !! ["work"; ".env"] = Some (File 420 (Text "OLD=1"))
  ∧ nodes (writeEnvFile Example.db ["A"] "/work/app/.env" Example.machine).2
      !! ["work"; "app"] = Some Dir.
Proof.
  destruct (write_env_touches_one_location Example.db ["A"] "/work/app/.env"
              Example.machine) as (_ & _ & H).
  split.
  - destruct (H ["work"; ".env"]) as [E|[E _]]; [by vm_compute | |].
    + exact (eq_trans E eq_refl).
    + by vm_compute in E.
  - destruct (H ["work"; "app"]) as [E|[_ E]]; [by vm_compute | | exact E].
    by vm_compute in E.
Defined.

(** X8.  A [writeEnvFile] that throws has created, written and truncated
    no file: the file system has at most gained directories, and it is
    unchanged altogether unless the exception is the file system's own. *)
Theorem failed_write_env_changes_no_file db keys envPath w e w' :
  writeEnvFile db keys envPath w = (inl e, w') →
  Spec.grows (nodes w) (nodes w')
  ∧ umask w' = umask w ∧ cwd w' = cwd w
  ∧ ((∀ code syscall p, e ≠ SystemError code syscall p) → w' = w).
Proof.
  intros H. apply writeEnvFile_throws in H
    as [[-> ->]|[(m & -> & ->)|(code & syscall & p & ns1 & -> & -> & Hg)]].
  - split; [apply grows_refl|done].
  - split; [apply grows_refl|done].
  - split; [done|]. split; [done|]. split; [done|]. intros Hne. by destruct (Hne code syscall p).
Qed.

Lemma failed_write_env_changes_no_file_witness :
  Spec.grows (nodes Example.machine)
    (nodes (writeEnvFile Example.db ["A"] "/work/new/.." Example.machine).2)
  ∧ nodes (writeEnvFile Example.db ["A"] "/work/new/.." Example.machine).2
      !! ["work"; "new"] = Some Dir.
Proof.
  assert (writeEnvFile Example.db ["A"] "/work/new/.." Example.machine
          = (inl (SystemError EISDIR "open" "/work/new/.."),
             (writeEnvFile Example.db ["A"] "/work/new/.." Example.machine).2))
    as H by (by vm_compute).
  split; [|by vm_compute].
  exact (proj1 (failed_write_env_changes_no_file _ _ _ _ _ _ H)).
Defined.

Lemma located_node_at (ns ns' : gmap (list string) node) cur comps loc :
  Fs.locate ns cur comps = inr loc → Fs.node_at ns' loc = ns' !! loc.
Proof. intros H. apply locate_snoc in H as (cur' & c & ->). apply node_at_snoc. Qed.

(** X9.  [write_env] can be repeated: after a successful call, the same
    call again returns the same result and leaves the file system exactly
    as the first call left it, provided the path does not name the
    database file. *)
Theorem write_env_twice db keys envPath w r w' :
  Spec.location w envPath ≠ db_file db →
  writeEnvFile db keys envPath w = (inr r, w') →
  writeEnvFile db keys envPath w' = (inr r, w').
Proof.
  intros Hne H.
  pose proof (writeEnvFile_records db keys envPath w Hne) as Hrec'.
  rewrite H in Hrec'. simpl in Hrec'.
  destruct (Path.isAbsolute envPath) eqn:Habs.
  2:{ by rewrite writeEnvFile_relative in H. }
  destruct (Sql.records db w) as [table|] eqn:Hrec.
  2:{ by rewrite writeEnvFile_unreadable in H. }
  rewrite (writeEnvFile_run _ _ _ _ _ Habs Hrec) in H.
  rewrite (writeEnvFile_run _ _ _ _ _ Habs Hrec').
  apply emit_inv in H as (-> & ns1 & loc & Hg & [d Hd] & Hloc & Hn & ->).
  set (content := Spec.concat_lines (Spec.lines_of table keys)) in *.
  set (mode := match Fs.node_at ns1 loc with
               | Some (File old _) => old
               | _ => N.ldiff mode_600 (umask w)
               end).
  pose proof (persists_write ns1 loc mode (Text content) Hn) as Hp.
  erewrite (emit_existing _ _ _ _ d loc mode (Text content)).
  - simpl. unfold Fs.set_nodes. simpl. by rewrite insert_insert_eq.
  - simpl. by apply (resolve_persists ns1).
  - simpl. by apply (locate_persists ns1).
  - rewrite (located_node_at _ _ _ _ _ Hloc). apply lookup_insert_eq.
Qed.

Lemma write_env_twice_witness :
  writeEnvFile Example.db ["A"; "B"] "/work/app/.env"
    (writeEnvFile Example.db ["A"; "B"] "/work/app/.env" Example.machine).2
  = (inr {| success := true; written := 1; missing := ["B"] |},
     (writeEnvFile Example.db ["A"; "B"] "/work/app/.env" Example.machine).2).
Proof.
  assert (Spec.location Example.machine "/work/app/.env" ≠ db_file Example.db) as Hne
    by (vm_compute; discriminate).
  assert (writeEnvFile Example.db ["A"; "B"] "/work/app/.env" Example.machine
          = (inr {| success := true; written := 1; missing := ["B"] |},
             (writeEnvFile Example.db ["A"; "B"] "/work/app/.env"
                Example.machine).2)) as H by (by vm_compute).
  exact (write_env_twice _ _ _ _ _ _ Hne H).
Defined.

(** X10.  Only the requested secrets reach the file: two stores that hold
    the same records under the names of [keys], whatever else they hold,
    give the same result and the same file content. *)
Theorem only_requested_secrets_are_written db keys envPath w1 w2 t1 t2 r1 r2 w1' w2' :
  Sql.records db w1 = Some t1 → Sql.records db w2 = Some t2 →
  (∀ k, k ∈ keys → Spec.findExact t1 k = Spec.findExact t2 k) →
  writeEnvFile db keys envPath w1 = (inr r1, w1') →
  writeEnvFile db keys envPath w2 = (inr r2, w2') →
  r1 = r2
  ∧ ∃ mode1 mode2 content,
      Spec.file_at w1' envPath = Some (mode1, Text content)
      ∧ Spec.file_at w2' envPath = Some (mode2, Text content).
Proof.
  intros Hrec1 Hrec2 Hsame H1 H2.
  apply writeEnvFile_effects in H1
    as (t1' & mode1 & Hrec1' & -> & _ & _ & Hfile1 & _ & _).
  apply writeEnvFile_effects in H2
    as (t2' & mode2 & Hrec2' & -> & _ & _ & Hfile2 & _ & _).
  assert (t1' = t1) as -> by congruence. assert (t2' = t2) as -> by congruence.
  assert (∀ k, k ∈ keys → Spec.stored t1 k ↔ Spec.stored t2 k) as Hst
    by (intros k Hk; by apply stored_ext, Hsame).
  split.
  - unfold Spec.distinct_found, Spec.missing_of.
    rewrite (filter_ext_in (Spec.stored t1) (Spec.stored t2)) by done.
    rewrite (filter_ext_in (λ k, ¬ Spec.stored t1 k) (λ k, ¬ Spec.stored t2 k)); [done|].
    intros k Hk. by rewrite (Hst k Hk).
  - exists mode1, mode2, (Spec.concat_lines (Spec.lines_of t1 keys)).
    split; [done|]. by rewrite (lines_of_ext t1 t2 keys Hsame).
Qed.
